(** * NeuraPic view-model: a shallow embedding of [src/App.tsx]

    The React component [App] keeps five pieces of state
    ([uploadedImages], [userPrompt], [generatedImage], [isLoading],
    [appState]) and a handful of event handlers.  This file models the
    state as a record, every handler as a function on it, the two
    asynchronous operations (file decoding and the generation request)
    as pending entries that settle later, and JavaScript strings as
    sequences of UTF-16 code units. *)

From Stdlib Require Import NArith ZArith Lia Bool.
From Stdlib Require Strings.String Strings.Ascii.
From stdpp Require Import base list.
Import Stdlib.Strings.String.StringSyntax.

Local Open Scope N_scope.
Local Open Scope string_scope.

(** ** JavaScript strings *)

Module JsString.

(** A string is the sequence of its UTF-16 code units. *)
Definition t := list N.

(** A source literal that only uses ASCII characters. *)
Definition lit (s : String.string) : t :=
  map Ascii.N_of_ascii (String.list_ascii_of_string s).

Definition SP : N := 32.
Definition LF : N := 10.

(** The class [\s] of regular expressions, which is also what
    [String.prototype.trim] strips: WhiteSpace and LineTerminator. *)
Definition is_ws (c : N) : bool :=
  ((9 <=? c) && (c <=? 13))
  || (c =? 32) || (c =? 160) || (c =? 5760)
  || ((8192 <=? c) && (c <=? 8202))
  || (c =? 8232) || (c =? 8233) || (c =? 8239) || (c =? 8287)
  || (c =? 12288) || (c =? 65279).

Fixpoint trimStart (s : t) : t :=
  match s with
  | [] => []
  | c :: r => if is_ws c then trimStart r else s
  end.

Definition trimEnd (s : t) : t := rev (trimStart (rev s)).

(** [s.trim()] *)
Definition trim (s : t) : t := trimEnd (trimStart s).

Definition head_is_ws (s : t) : bool :=
  match s with
  | [] => false
  | c :: _ => is_ws c
  end.

(** [s.replace(/\s\s+/g, ' ')]: scanning from the left, a whitespace
    character followed by at least one more whitespace character
    starts a match, the match extends over the whole run, and the run
    is replaced by one space.  [inrun] says that the scan is inside a
    match whose replacement was already emitted.  A whitespace
    character that stands alone is copied as it is. *)
Fixpoint replace_runs (inrun : bool) (s : t) : t :=
  match s with
  | [] => []
  | c :: r =>
      if is_ws c then
        if inrun then replace_runs true r
        else if head_is_ws r then SP :: replace_runs true r
             else c :: replace_runs false r
      else c :: replace_runs false r
  end.

Definition replace_ws_runs (s : t) : t := replace_runs false s.

Fixpoint starts_with (p s : t) : bool :=
  match p, s with
  | [], _ => true
  | _ :: _, [] => false
  | a :: p', b :: s' => (a =? b) && starts_with p' s'
  end.

(** [s.includes(p)] *)
Fixpoint includes (s p : t) : bool :=
  starts_with p s ||
  match s with
  | [] => false
  | _ :: r => includes r p
  end.

(** A template literal [`${a} ${b} ${c}`]. *)
Definition spaced3 (a b c : t) : t := a ++ SP :: b ++ SP :: c.

End JsString.

Import JsString.

(** ** The prompt composer, [createFinalPrompt] *)

Module Prompt.

Definition baseInstruction : JsString.t :=
  lit "**Primary Objective:** Recreate the exact person/people from the uploaded photos in a new, photorealistic image.".

Definition scenePrefix : JsString.t := lit "**Scene Description:** ".

Definition fallbackScene : JsString.t :=
  lit "**Scene Description:** Create an interesting and creative photorealistic scene for the person/people in the photo.".

(** The rules template literal, with the line breaks and the
    indentation it has in the source file. *)
Definition indent (n : nat) : JsString.t := repeat SP n.

Definition rules : JsString.t :=
  concat
    [ [LF]; indent 12; lit "**Critical Rules (Non-negotiable):**";
      [LF]; indent 12; lit "1.  **Preserve Identity:** You MUST keep the faces of the people identical to the source photos. Do not alter their facial structure, features, or unique likeness. The final image must be of the *same people*.";
      [LF]; indent 12; lit "2.  **Photorealistic Output:** The final image must look like a real photograph, not a drawing or digital creation.";
      [LF]; indent 12; lit "3.  **Seamless Integration:** The people from the photos must be seamlessly integrated into the described scene with authentic lighting and shadows.";
      [LF]; indent 12; lit "4.  **Single Image:** Produce a single, cohesive final image.";
      [LF]; indent 8 ].

(** [userPrompt.trim() ? `**Scene Description:** ${userPrompt.trim()}.` : fallback];
    the empty string is the only falsy string. *)
Definition userScene (userPrompt : JsString.t) : JsString.t :=
  match trim userPrompt with
  | [] => fallbackScene
  | _ :: _ => scenePrefix ++ trim userPrompt ++ lit "."
  end.

Definition createFinalPrompt (userPrompt : JsString.t) : JsString.t :=
  trim (spaced3 baseInstruction (userScene userPrompt) (replace_ws_runs rules)).

End Prompt.

Import Prompt.


(** ** The view-model state of [App] *)

Inductive ImageStatus := st_pending | st_done | st_error.

Record GeneratedImage := {
  status : ImageStatus;
  url : option JsString.t;
  error : option JsString.t
}.

Inductive AppState := idle | photos_selected | generating | results_shown.

(** The [useState] cells of [App].  [showSplash] and [isMobile] only
    select what is drawn and are left out. *)
Record AppModel := {
  uploadedImages : list JsString.t;
  userPrompt : JsString.t;
  generatedImage : option GeneratedImage;
  isLoading : bool;
  appState : AppState
}.

(** The initial values given to [useState]. *)
Definition initialModel : AppModel :=
  {| uploadedImages := []; userPrompt := []; generatedImage := None;
     isLoading := false; appState := idle |}.

(** The setters returned by [useState].  [setUploadedImages] takes an
    updater, as both of its call sites with a previous value do. *)
Definition setUploadedImages (f : list JsString.t -> list JsString.t) (v : AppModel) : AppModel :=
  {| uploadedImages := f (uploadedImages v); userPrompt := userPrompt v;
     generatedImage := generatedImage v; isLoading := isLoading v;
     appState := appState v |}.

Definition setUserPrompt (p : JsString.t) (v : AppModel) : AppModel :=
  {| uploadedImages := uploadedImages v; userPrompt := p;
     generatedImage := generatedImage v; isLoading := isLoading v;
     appState := appState v |}.

Definition setGeneratedImage (g : option GeneratedImage) (v : AppModel) : AppModel :=
  {| uploadedImages := uploadedImages v; userPrompt := userPrompt v;
     generatedImage := g; isLoading := isLoading v;
     appState := appState v |}.

Definition setIsLoading (b : bool) (v : AppModel) : AppModel :=
  {| uploadedImages := uploadedImages v; userPrompt := userPrompt v;
     generatedImage := generatedImage v; isLoading := b;
     appState := appState v |}.

Definition setAppState (a : AppState) (v : AppModel) : AppModel :=
  {| uploadedImages := uploadedImages v; userPrompt := userPrompt v;
     generatedImage := generatedImage v; isLoading := isLoading v;
     appState := a |}.

(** The three object literals passed to [setGeneratedImage]. *)
Definition image_pending : GeneratedImage :=
  {| status := st_pending; url := None; error := None |}.
Definition image_done (resultUrl : JsString.t) : GeneratedImage :=
  {| status := st_done; url := Some resultUrl; error := None |}.
Definition image_error (errorMessage : JsString.t) : GeneratedImage :=
  {| status := st_error; url := None; error := Some errorMessage |}.

(** ** Array helpers *)

(** [arr.filter((x, index) => keep(index, x))], scanning from [index]. *)
Fixpoint filter_from {A} (keep : nat -> A -> bool) (index : nat) (l : list A) : list A :=
  match l with
  | [] => []
  | x :: r =>
      if keep index x then x :: filter_from keep (S index) r
      else filter_from keep (S index) r
  end.

Definition js_filter {A} (keep : nat -> A -> bool) (l : list A) : list A :=
  filter_from keep 0 l.

(** The callback [(_, index) => index !== indexToRemove]. *)
Definition not_index {A} (indexToRemove : Z) (index : nat) (_ : A) : bool :=
  negb (Z.of_nat index =? indexToRemove)%Z.

(** ** Synchronous handlers *)

(** [handleRemoveImage]: the updater filters on the index and, inside
    the updater, calls [setAppState('idle')] when nothing is left.  An
    index is a JavaScript number; the gallery passes array positions,
    other integers are accepted too. *)
Definition handleRemoveImage (indexToRemove : Z) (v : AppModel) : AppModel :=
  let newImages := js_filter (not_index indexToRemove) (uploadedImages v) in
  let v' := match newImages with
            | [] => setAppState idle v
            | _ :: _ => v
            end in
  setUploadedImages (fun _ => newImages) v'.

(** [handleReset] *)
Definition handleReset (v : AppModel) : AppModel :=
  setUserPrompt [] (setAppState idle (setGeneratedImage None
    (setUploadedImages (fun _ => []) v))).

(** ** Asynchronous operations *)

(** What a [FileReader] ends with: [onloadend] after a load resolves
    with the data URL, [onerror] rejects. *)
Inductive ReadResult := ReadOk (dataUrl : JsString.t) | ReadFailed.

Record File := { fileName : JsString.t; readAsDataURL : ReadResult }.

(** [Promise.all]: the results in order when every promise resolves,
    a rejection as soon as one rejects. *)
Fixpoint promise_all (rs : list ReadResult) : option (list JsString.t) :=
  match rs with
  | [] => Some []
  | ReadOk u :: r =>
      match promise_all r with
      | Some us => Some (u :: us)
      | None => None
      end
  | ReadFailed :: _ => None
  end.

(** A value caught by [catch (err)]: an [Error] instance with its
    message, or anything else. *)
Inductive Thrown := ThrownError (message : JsString.t) | ThrownOther.

(** How a call of the external [generateImage] ends. *)
Inductive Settled := Resolved (resultUrl : JsString.t) | Rejected (err : Thrown).

(** The arguments of one [generateImage(uploadedImages, prompt)] call. *)
Record GenerateCall := {
  call_images : list JsString.t;
  call_prompt : JsString.t
}.

(** The component together with what is outside it: the batches whose
    [Promise.all] has not settled, the [generateImage] calls that have
    not settled, and the [alert] boxes shown so far. *)
Record World := {
  view : AppModel;
  decoding : list (list File);
  inflight : list GenerateCall;
  alerts : list JsString.t
}.

Definition initialWorld : World :=
  {| view := initialModel; decoding := []; inflight := []; alerts := [] |}.

Definition with_view (f : AppModel -> AppModel) (w : World) : World :=
  {| view := f (view w); decoding := decoding w;
     inflight := inflight w; alerts := alerts w |}.

Definition uploadAlert : JsString.t :=
  lit "Sorry, there was an error processing your photos. Please try again.".

Definition unknownError : JsString.t := lit "An unknown error occurred.".

(** [handleImageUpload], up to the point where it returns: with a
    non-empty [e.target.files] the readers are started and the batch
    waits in [Promise.all]; otherwise nothing happens. *)
Definition handleImageUpload (files : option (list File)) (w : World) : World :=
  match files with
  | Some (f :: fs) =>
      {| view := view w; decoding := decoding w ++ [f :: fs];
         inflight := inflight w; alerts := alerts w |}
  | Some [] | None => w
  end.

(** The [.then] callback of [handleImageUpload]. *)
Definition upload_then (base64Images : list JsString.t) (v : AppModel) : AppModel :=
  setGeneratedImage None (setAppState photos_selected
    (setUploadedImages (fun prevImages => prevImages ++ base64Images) v)).

(** The batch [files] settles: [.then] on success, [.catch] (an
    [alert]) on the first rejection. *)
Definition upload_settled (files : list File) (w : World) : World :=
  match promise_all (map readAsDataURL files) with
  | Some base64Images => with_view (upload_then base64Images) w
  | None =>
      {| view := view w; decoding := decoding w;
         inflight := inflight w; alerts := alerts w ++ [uploadAlert] |}
  end.

(** [handleGenerateClick], up to its [await]. *)
Definition handleGenerateClick (w : World) : World :=
  match uploadedImages (view w) with
  | [] => w
  | _ :: _ =>
      let v := setGeneratedImage (Some image_pending)
                 (setAppState generating (setIsLoading true (view w))) in
      {| view := v; decoding := decoding w;
         inflight := inflight w ++
           [ {| call_images := uploadedImages (view w);
                call_prompt := createFinalPrompt (userPrompt (view w)) |} ];
         alerts := alerts w |}
  end.

(** [handleGenerateClick], from the [await] on: the [try] or the
    [catch] branch, then the two setters after the [try] statement. *)
Definition generate_settled (o : Settled) (v : AppModel) : AppModel :=
  let v1 :=
    match o with
    | Resolved resultUrl => setGeneratedImage (Some (image_done resultUrl)) v
    | Rejected err =>
        let errorMessage :=
          match err with
          | ThrownError message => message
          | ThrownOther => unknownError
          end in
        setGeneratedImage (Some (image_error errorMessage)) v
    end in
  setAppState results_shown (setIsLoading false v1).

(** ** Events and runs *)

Inductive Event :=
| ImageUpload (files : option (list File))
| DecodeSettled (k : nat)
| RemoveImage (indexToRemove : Z)
| PromptChange (value : JsString.t)
| GenerateClick
| GenerateSettled (k : nat) (o : Settled)
| Reset.

(** One event; settling something that is not pending does nothing. *)
Definition step (e : Event) (w : World) : World :=
  match e with
  | ImageUpload files => handleImageUpload files w
  | DecodeSettled k =>
      match decoding w !! k with
      | Some files =>
          upload_settled files
            {| view := view w; decoding := delete k (decoding w);
               inflight := inflight w; alerts := alerts w |}
      | None => w
      end
  | RemoveImage i => with_view (handleRemoveImage i) w
  | PromptChange value => with_view (setUserPrompt value) w
  | GenerateClick => handleGenerateClick w
  | GenerateSettled k o =>
      match inflight w !! k with
      | Some _ =>
          with_view (generate_settled o)
            {| view := view w; decoding := decoding w;
               inflight := delete k (inflight w); alerts := alerts w |}
      | None => w
      end
  | Reset => with_view handleReset w
  end.

Definition run (es : list Event) (w : World) : World :=
  foldl (fun w e => step e w) w es.

Definition nonempty {A} (l : list A) : bool :=
  match l with [] => false | _ :: _ => true end.

Definition AppState_eqb (a b : AppState) : bool :=
  match a, b with
  | idle, idle | photos_selected, photos_selected
  | generating, generating | results_shown, results_shown => true
  | _, _ => false
  end.

(** Which events the rendered page lets happen in [w]: the controls of
    the branch of the JSX chosen by [appState], and the settling of
    whatever is pending.  The handlers that [PolaroidCard] may call are
    not counted. *)
Definition offered (w : World) (e : Event) : bool :=
  let v := view w in
  let selecting := AppState_eqb (appState v) photos_selected && nonempty (uploadedImages v) in
  let shown := AppState_eqb (appState v) results_shown && nonempty (uploadedImages v) in
  match e with
  | ImageUpload _ => AppState_eqb (appState v) idle || selecting
  | DecodeSettled k => (k <? length (decoding w))%nat
  | RemoveImage i =>
      selecting && (0 <=? i)%Z && (i <? Z.of_nat (length (uploadedImages v)))%Z
  | PromptChange _ => selecting
  | GenerateClick => selecting || (shown && negb (isLoading v))
  | GenerateSettled k _ => (k <? length (inflight w))%nat
  | Reset => selecting || shown
  end.

(** Every event of the run is offered in the state it happens in. *)
Fixpoint all_offered (es : list Event) (w : World) : bool :=
  match es with
  | [] => true
  | e :: es' => offered w e && all_offered es' (step e w)
  end.

(** An upload of [files] whose batch settles before anything else
    happens: the new batch is the last one pending. *)
Definition upload_outcome (files : list File) (w : World) : World :=
  run [ImageUpload (Some files); DecodeSettled (length (decoding w))] w.

(** What the specification says of a batch whose files decode to
    [base64Images]. *)
Definition upload_appends (w : World) (files : list File) (base64Images : list JsString.t) : Prop :=
  let prevImages := uploadedImages (view w) in
  let v' := view (upload_outcome files w) in
  length (uploadedImages v') = (length prevImages + length files)%nat
  /\ (forall i : nat, (i < length prevImages)%nat -> uploadedImages v' !! i = prevImages !! i)
  /\ (forall j : nat, (j < length files)%nat ->
        uploadedImages v' !! (length prevImages + j)%nat = base64Images !! j)
  /\ appState v' = photos_selected
  /\ generatedImage v' = None.

(** The invariant of the data model. *)
Definition ui_consistent (v : AppModel) : Prop :=
  uploadedImages v = [] -> appState v <> generating /\ appState v <> results_shown.

(** Every generation call of the run settles while there are images. *)
Fixpoint settles_with_images (es : list Event) (w : World) : Prop :=
  match es with
  | [] => True
  | e :: es' =>
      match e with
      | GenerateSettled _ _ => uploadedImages (view w) <> []
      | _ => True
      end /\ settles_with_images es' (step e w)
  end.

(** ** The composer as the specification words it *)

(** Whitespace normalisation in the words of the specification: every
    run of whitespace characters, short or long, becomes one space.
    [inrun] says that the space of the current run is already out. *)
Fixpoint collapse_runs (inrun : bool) (s : JsString.t) : JsString.t :=
  match s with
  | [] => []
  | c :: r =>
      if is_ws c then
        if inrun then collapse_runs true r else SP :: collapse_runs true r
      else c :: collapse_runs false r
  end.

Definition normalize_whitespace (s : JsString.t) : JsString.t :=
  collapse_runs false s.

(** The composer with the normalisation applied to each of the three
    clauses before they are joined, as the specification has it. *)
Definition createFinalPrompt_normalizing (userPrompt : JsString.t) : JsString.t :=
  trim (spaced3 (normalize_whitespace baseInstruction)
                (normalize_whitespace (userScene userPrompt))
                (normalize_whitespace rules)).

(** The sentence of the fallback clause, without its label and its
    full stop. *)
Definition fallbackWording : JsString.t :=
  lit "Create an interesting and creative photorealistic scene for the person/people in the photo".

(** The scene clause as the specification has it: the fallback for a
    blank prompt, and otherwise the user's text and no fallback. *)
Definition scene_clause_as_specified (userPrompt : JsString.t) : Prop :=
  (trim userPrompt = [] ->
     includes (createFinalPrompt userPrompt) fallbackScene = true)
  /\ (trim userPrompt <> [] ->
     includes (createFinalPrompt userPrompt) (trim userPrompt) = true
     /\ includes (createFinalPrompt userPrompt) fallbackScene = false).

(** [d] does not occur in [p]. *)
Definition lacks (d : N) (p : JsString.t) : bool :=
  forallb (fun c => negb (c =? d)) p.

(** [p] is not empty and its first character does not occur in [x]. *)
Definition first_not_in (p x : JsString.t) : bool :=
  match p with
  | [] => false
  | g :: _ => lacks g x
  end.

(** The rules block as it ends up in every composed prompt. *)
Definition rulesFlat : JsString.t := trimEnd (replace_ws_runs rules).

Definition beach : JsString.t := lit "on a beach at sunset".
Definition two_spaces : JsString.t := lit "on a  beach".

(** ** Sample data used by the examples *)

Definition photo_a : JsString.t := lit "data:image/png;base64,AAAA".
Definition photo_b : JsString.t := lit "data:image/png;base64,BBBB".
Definition photo_c : JsString.t := lit "data:image/jpeg;base64,CCCC".
Definition result_url : JsString.t := lit "data:image/png;base64,RRRR".

Definition file_a : File := {| fileName := lit "a.png"; readAsDataURL := ReadOk photo_a |}.
Definition file_b : File := {| fileName := lit "b.png"; readAsDataURL := ReadOk photo_b |}.
Definition file_bad : File := {| fileName := lit "bad.webp"; readAsDataURL := ReadFailed |}.

(** Three photos chosen, nothing generated yet. *)
Definition three_photos : AppModel :=
  setAppState photos_selected
    (setUploadedImages (fun _ => [photo_a; photo_b; photo_c]) initialModel).

Definition three_photos_world : World := with_view (fun _ => three_photos) initialWorld.

(** A second batch is still decoding when generate is clicked; it
    settles, the page shows the selection again, the user starts over,
    and then the generation call resolves. *)
Definition late_result_run : list Event :=
  [ ImageUpload (Some [file_a]); DecodeSettled 0;
    ImageUpload (Some [file_b]); GenerateClick; DecodeSettled 0;
    Reset; GenerateSettled 0 (Resolved result_url) ].

(** One upload, one generation, nothing in between. *)
Definition plain_run : list Event :=
  [ ImageUpload (Some [file_a]); DecodeSettled 0;
    GenerateClick; GenerateSettled 0 (Resolved result_url) ].

(** ** Downloading the result *)

(** The anchor element that [handleDownloadIndividualImage] builds,
    clicks and removes again. *)
Record DownloadLink := {
  link_href : JsString.t;
  link_download : JsString.t
}.

Definition downloadName : JsString.t := lit "neurapic-creation.jpg".

(** [handleDownloadIndividualImage]: the link that gets clicked, if
    any.  The guard is [generatedImage?.status === 'done' &&
    generatedImage.url]; an empty url is falsy.  No setter is called. *)
Definition handleDownloadIndividualImage (v : AppModel) : option DownloadLink :=
  match generatedImage v with
  | None => None
  | Some g =>
      match status g, url g with
      | st_done, Some u =>
          if nonempty u
          then Some {| link_href := u; link_download := downloadName |}
          else None
      | _, _ => None
      end
  end.

(** ** What the page draws *)

(** The three conditional blocks of the JSX returned by [App]. *)
Inductive Screen := UploadScreen | SelectionScreen | ResultScreen.

Definition shows_upload (v : AppModel) : bool :=
  AppState_eqb (appState v) idle.

Definition shows_selection (v : AppModel) : bool :=
  AppState_eqb (appState v) photos_selected && nonempty (uploadedImages v).

Definition shows_result (v : AppModel) : bool :=
  (AppState_eqb (appState v) generating || AppState_eqb (appState v) results_shown)
  && nonempty (uploadedImages v).

(** The blocks that are drawn, in the order of the source. *)
Definition screens (v : AppModel) : list Screen :=
  (if shows_upload v then [UploadScreen] else [])
  ++ (if shows_selection v then [SelectionScreen] else [])
  ++ (if shows_result v then [ResultScreen] else []).

(** [{generatedImage && <PolaroidCard ... />}] inside the result block. *)
Definition shows_card (v : AppModel) : bool :=
  shows_result v && match generatedImage v with Some _ => true | None => false end.

(** ** Shapes of the stored result *)

(** A result written when a call has settled. *)
Definition is_outcome (g : GeneratedImage) : Prop :=
  (exists resultUrl, g = image_done resultUrl)
  \/ (exists errorMessage, g = image_error errorMessage).

(** The values [generatedImage] is ever given. *)
Definition result_shape (r : option GeneratedImage) : Prop :=
  r = None \/ r = Some image_pending \/ exists g, r = Some g /\ is_outcome g.

(** What a generation request is made of. *)
Definition call_shape (c : GenerateCall) : Prop :=
  call_images c <> [] /\ exists userPrompt, call_prompt c = createFinalPrompt userPrompt.

(** ** More on strings *)

(** Two whitespace characters stand next to each other somewhere. *)
Fixpoint adjacent_ws (s : JsString.t) : bool :=
  match s with
  | [] => false
  | c :: r => (is_ws c && head_is_ws r) || adjacent_ws r
  end.

(** The text that ends up between the label and the full stop of the
    scene clause. *)
Definition effective_text (userPrompt : JsString.t) : JsString.t :=
  match trim userPrompt with
  | [] => fallbackWording
  | _ :: _ => trim userPrompt
  end.

(** ** Internationalization *)

Module I18n.

Inductive Lang := en | es.

(** [keyof typeof translations.en] *)
Inductive TranslationKey :=
| appName | appSubtitle | uploadCaption | startJourney | yourSourcePhotos
| uploadMultiple | addMorePhotos | describeFinalImage | promptPlaceholder
| startOver | generate | generating | generatingSimple | yourCreation
| generateAgain.

(** The two tables; letters outside ASCII are given by their code unit. *)
Definition translations (l : Lang) (key : TranslationKey) : JsString.t :=
  match l with
  | en =>
      match key with
      | appName => lit "NeuraPic"
      | appSubtitle => lit "Generate yourself through time and space."
      | uploadCaption => lit "Upload Source Photos"
      | startJourney => lit "Click the box above to upload your photos and start your journey."
      | yourSourcePhotos => lit "Your Source Photos"
      | uploadMultiple => lit "Upload multiple images to blend features or styles."
      | addMorePhotos => lit "+ Add More Photos"
      | describeFinalImage => lit "Describe the final image"
      | promptPlaceholder => lit "e.g., as astronauts on the moon, in a vibrant cyberpunk city..."
      | startOver => lit "Start Over"
      | generate => lit "Generate"
      | generating => lit "Generating your masterpiece..."
      | generatingSimple => lit "Generating..."
      | yourCreation => lit "Your Creation"
      | generateAgain => lit "Generate Again"
      end
  | es =>
      match key with
      | appName => lit "NeuraPic"
      | appSubtitle => lit "Gen" ++ [233] ++ lit "rate a ti mismo a trav" ++ [233] ++ lit "s del tiempo y el espacio."
      | uploadCaption => lit "Sube Fotos de Origen"
      | startJourney => lit "Haz clic en el recuadro para subir tus fotos y comenzar tu viaje."
      | yourSourcePhotos => lit "Tus Fotos de Origen"
      | uploadMultiple => lit "Sube m" ++ [250] ++ lit "ltiples im" ++ [225] ++ lit "genes para mezclar rasgos o estilos."
      | addMorePhotos => lit "+ A" ++ [241] ++ lit "adir M" ++ [225] ++ lit "s Fotos"
      | describeFinalImage => lit "Describe la imagen final"
      | promptPlaceholder => lit "ej: como astronautas en la luna, en una vibrante ciudad cyberpunk..."
      | startOver => lit "Empezar de Nuevo"
      | generate => lit "Generar"
      | generating => lit "Generando tu obra maestra..."
      | generatingSimple => lit "Generando..."
      | yourCreation => lit "Tu Creaci" ++ [243] ++ lit "n"
      | generateAgain => lit "Generar de Nuevo"
      end
  end.

Definition DASH : N := 45.

(** [s.split('-')[0]]: what stands before the first dash, or all of
    [s] when it has none. *)
Fixpoint before_dash (s : JsString.t) : JsString.t :=
  match s with
  | [] => []
  | c :: r => if c =? DASH then [] else c :: before_dash r
  end.

(** [===] on strings. *)
Fixpoint js_eqb (a b : JsString.t) : bool :=
  match a, b with
  | [], [] => true
  | x :: a', y :: b' => (x =? y) && js_eqb a' b'
  | _, _ => false
  end.

(** [getLanguage], with [navigator.language] as its argument. *)
Definition getLanguage (navigatorLanguage : JsString.t) : Lang :=
  if js_eqb (before_dash navigatorLanguage) (lit "es") then es else en.

(** [t], with the module constant [lang] as its first argument:
    [translations[lang]?.[key] || translations.en[key]]. *)
Definition t (lang : Lang) (key : TranslationKey) : JsString.t :=
  if nonempty (translations lang key) then translations lang key
  else translations en key.

End I18n.

(** ** The footer's ticker *)

Module Footer.

Definition REMIX_IDEAS : list JsString.t :=
  [ lit "to try different hairstyles.";
    lit "to turn your pet into a cartoon character.";
    lit "to create a fantasy version of yourself.";
    lit "to design a superhero based on your photo.";
    lit "to place yourself in famous historical events.";
    lit "to generate a custom video game avatar." ].

(** The updater run by the interval:
    [prevIndex => (prevIndex + 1) % REMIX_IDEAS.length]. *)
Definition tick (prevIndex : nat) : nat :=
  ((prevIndex + 1) mod length REMIX_IDEAS)%nat.

(** The index after [n] ticks, from [useState(0)]. *)
Definition index_after (n : nat) : nat := Nat.iter n tick 0%nat.

End Footer.

(** ** Conditions that every run keeps *)

Definition generating_sound (w : World) : Prop :=
  appState (view w) = generating ->
  uploadedImages (view w) <> []
  /\ isLoading (view w) = true
  /\ generatedImage (view w) = Some image_pending.

Definition selection_sound (w : World) : Prop :=
  appState (view w) = photos_selected -> uploadedImages (view w) <> [].

Definition loading_sound (w : World) : Prop :=
  isLoading (view w) = true -> inflight w <> [].

Definition shown_sound (w : World) : Prop :=
  appState (view w) = results_shown ->
  exists g, generatedImage (view w) = Some g /\ is_outcome g.

Definition pending_sound (w : World) : Prop :=
  Forall call_shape (inflight w) /\ Forall (fun files => files <> []) (decoding w).

(** All of these conditions. *)
Definition sound (w : World) : Prop :=
  pending_sound w /\ selection_sound w /\ generating_sound w
  /\ loading_sound w /\ shown_sound w
  /\ result_shape (generatedImage (view w)).

(** Some event is offered. *)
Definition can_go_on (w : World) : Prop := exists e, offered w e = true.

(** ** More sample data *)

Definition one_photo_run : list Event :=
  [ ImageUpload (Some [file_a]); DecodeSettled 0; GenerateClick ].

(** Two batches are decoding. *)
Definition two_batches_world : World :=
  {| view := three_photos; decoding := [[file_a]; [file_b]];
     inflight := []; alerts := [] |}.

(** * Properties *)

(** ** Arrays *)

Section FilterIndex.

Context {A : Type}.
Variable indexToRemove : Z.

Lemma filter_from_outside (l : list A) (k : nat) :
  (indexToRemove < Z.of_nat k \/ Z.of_nat (k + length l) <= indexToRemove)%Z ->
  filter_from (not_index indexToRemove) k l = l.
Proof.
  revert k. induction l as [|x r IH]; intros k Hout; simpl; [reflexivity|].
  unfold not_index at 1.
  destruct (Z.eqb_spec (Z.of_nat k) indexToRemove) as [E|_]; simpl in *.
  - lia.
  - f_equal. apply IH. lia.
Qed.

Lemma filter_from_inside (l : list A) (k : nat) :
  (Z.of_nat k <= indexToRemove < Z.of_nat (k + length l))%Z ->
  filter_from (not_index indexToRemove) k l
  = delete (Z.to_nat indexToRemove - k)%nat l.
Proof.
  revert k. induction l as [|x r IH]; intros k Hin; simpl in *; [lia|].
  unfold not_index at 1.
  destruct (Z.eqb_spec (Z.of_nat k) indexToRemove) as [E|NE]; simpl.
  - replace (Z.to_nat indexToRemove - k)%nat with 0%nat by lia. simpl.
    apply filter_from_outside. lia.
  - replace (Z.to_nat indexToRemove - k)%nat
      with (S (Z.to_nat indexToRemove - S k)) by lia.
    simpl. f_equal. apply IH. lia.
Qed.

End FilterIndex.

Lemma promise_all_ok (files : list File) (imgs : list JsString.t) :
  map readAsDataURL files = map ReadOk imgs ->
  promise_all (map readAsDataURL files) = Some imgs.
Proof.
  intros ->. induction imgs as [|u us IH]; simpl; [reflexivity|].
  now rewrite IH.
Qed.

Lemma promise_all_failed (rs : list ReadResult) :
  ReadFailed ∈ rs -> promise_all rs = None.
Proof.
  induction rs as [|r rs IH]; intros Hin.
  - inversion Hin.
  - simpl. destruct r as [u|]; [|reflexivity].
    apply elem_of_cons in Hin as [E|Hin]; [discriminate|].
    now rewrite IH.
Qed.

Lemma lookup_snoc_length {A} (l : list A) (x : A) :
  (l ++ [x]) !! length l = Some x.
Proof.
  rewrite lookup_app_r by lia. now rewrite Nat.sub_diag.
Qed.

Lemma delete_snoc_length {A} (l : list A) (x : A) :
  delete (length l) (l ++ [x]) = l.
Proof.
  induction l as [|y l IH]; simpl; [reflexivity|]. now rewrite IH.
Qed.

(** ** Removing a photo *)

Lemma handleRemoveImage_images (i : Z) (v : AppModel) :
  uploadedImages (handleRemoveImage i v) =
  js_filter (not_index i) (uploadedImages v).
Proof.
  unfold handleRemoveImage. now destruct (js_filter _ _).
Qed.

Lemma handleRemoveImage_appState (i : Z) (v : AppModel) :
  appState (handleRemoveImage i v) =
  match uploadedImages (handleRemoveImage i v) with
  | [] => idle
  | _ :: _ => appState v
  end.
Proof.
  unfold handleRemoveImage. now destruct (js_filter _ _).
Qed.

Lemma handleRemoveImage_others (i : Z) (v : AppModel) :
  userPrompt (handleRemoveImage i v) = userPrompt v
  /\ generatedImage (handleRemoveImage i v) = generatedImage v
  /\ isLoading (handleRemoveImage i v) = isLoading v.
Proof.
  unfold handleRemoveImage. now destruct (js_filter _ _).
Qed.

(** C4: removing an index [i] that is in range from [L > 0] images
    leaves the [L - 1] other images, those before [i] at their
    positions and those after [i] one position earlier; when nothing is
    left (which is the case when [L = 1]) [appState] becomes [idle], and
    otherwise it stays as it was.  The prompt, the result and the
    loading flag are not touched. *)
Theorem remove_in_range (v : AppModel) (i : Z) :
  (0 <= i < Z.of_nat (length (uploadedImages v)))%Z ->
  let prev := uploadedImages v in
  let v' := handleRemoveImage i v in
  uploadedImages v' = delete (Z.to_nat i) prev
  /\ length (uploadedImages v') = (length prev - 1)%nat
  /\ (forall j : nat, (j < Z.to_nat i)%nat -> uploadedImages v' !! j = prev !! j)
  /\ (forall j : nat, (Z.to_nat i <= j)%nat -> uploadedImages v' !! j = prev !! S j)
  /\ (uploadedImages v' = [] -> appState v' = idle)
  /\ (length prev = 1%nat -> uploadedImages v' = [] /\ appState v' = idle)
  /\ (uploadedImages v' <> [] -> appState v' = appState v)
  /\ userPrompt v' = userPrompt v
  /\ generatedImage v' = generatedImage v
  /\ isLoading v' = isLoading v.
Proof.
  intros Hi prev v'.
  assert (Himg : uploadedImages v' = delete (Z.to_nat i) prev).
  { unfold v'. rewrite handleRemoveImage_images. unfold js_filter.
    rewrite filter_from_inside by (simpl; lia).
    now rewrite Nat.sub_0_r. }
  assert (Hlen : length (uploadedImages v') = (length prev - 1)%nat).
  { rewrite Himg. apply length_delete, lookup_lt_is_Some. unfold prev. lia. }
  assert (Hst := handleRemoveImage_appState i v). fold v' in Hst.
  destruct (handleRemoveImage_others i v) as (Hp & Hg & Hl).
  split_and!; try assumption.
  - intros j Hj. rewrite Himg. now apply list_lookup_delete_lt.
  - intros j Hj. rewrite Himg. now apply list_lookup_delete_ge.
  - intros E. now rewrite Hst, E.
  - intros HL.
    assert (E : uploadedImages v' = []) by (apply nil_length_inv; lia).
    split; [assumption|]. now rewrite Hst, E.
  - intros NE. rewrite Hst. now destruct (uploadedImages v').
Qed.

Lemma remove_in_range_witness :
  (0 <= 1 < Z.of_nat (length (uploadedImages three_photos)))%Z
  /\ uploadedImages (handleRemoveImage 1 three_photos) = [photo_a; photo_c].
Proof.
  assert (H : (0 <= 1 < Z.of_nat (length (uploadedImages three_photos)))%Z)
    by (simpl; lia).
  split; [exact H|].
  exact (eq_trans (proj1 (remove_in_range three_photos 1 H)) eq_refl).
Defined.

(** C10: with an index that is out of range (negative, or at least the
    length [L]) the removal is defined and returns the same images in
    the same order; when [L > 0] the whole state, [appState] included,
    is the one before. *)
Theorem remove_out_of_range (v : AppModel) (i : Z) :
  (i < 0 \/ Z.of_nat (length (uploadedImages v)) <= i)%Z ->
  let v' := handleRemoveImage i v in
  uploadedImages v' = uploadedImages v
  /\ length (uploadedImages v') = length (uploadedImages v)
  /\ ((0 < length (uploadedImages v))%nat -> appState v' = appState v /\ v' = v).
Proof.
  intros Hi v'.
  assert (Himg : uploadedImages v' = uploadedImages v).
  { unfold v'. rewrite handleRemoveImage_images. unfold js_filter.
    apply filter_from_outside. simpl. lia. }
  split; [assumption|]. split; [now rewrite Himg|].
  intros HL.
  assert (Hst := handleRemoveImage_appState i v). fold v' in Hst.
  destruct (handleRemoveImage_others i v) as (Hp & Hg & Hl). fold v' in Hp, Hg, Hl.
  assert (Hst' : appState v' = appState v).
  { rewrite Hst, Himg. destruct (uploadedImages v); [simpl in HL; lia | reflexivity]. }
  split; [assumption|].
  destruct v', v; simpl in *; congruence.
Qed.

Lemma remove_out_of_range_witness :
  (3 < 0 \/ Z.of_nat (length (uploadedImages three_photos)) <= 3)%Z
  /\ handleRemoveImage 3 three_photos = three_photos.
Proof.
  assert (H : (3 < 0 \/ Z.of_nat (length (uploadedImages three_photos)) <= 3)%Z)
    by (right; simpl; lia).
  split; [exact H|].
  refine (proj2 (proj2 (proj2 (remove_out_of_range three_photos 3 H)) _)).
  simpl; lia.
Defined.

(** ** Generating *)

(** C6: with no uploaded image [handleGenerateClick] returns at its
    first line: the state, the pending work and the alerts are the
    ones before, and no [generateImage] call is issued. *)
Theorem generate_without_images_is_noop (w : World) :
  uploadedImages (view w) = [] ->
  step GenerateClick w = w
  /\ view (step GenerateClick w) = view w
  /\ inflight (step GenerateClick w) = inflight w.
Proof.
  intros E. simpl. unfold handleGenerateClick. now rewrite E.
Qed.

Lemma generate_without_images_is_noop_witness :
  uploadedImages (view initialWorld) = []
  /\ step GenerateClick initialWorld = initialWorld.
Proof.
  split; [reflexivity|].
  exact (proj1 (generate_without_images_is_noop initialWorld eq_refl)).
Defined.



(** ** Uploading *)

Lemma upload_settled_ok (files : list File) (imgs : list JsString.t) (w : World) :
  map readAsDataURL files = map ReadOk imgs ->
  upload_settled files w = with_view (upload_then imgs) w.
Proof.
  intros H. unfold upload_settled. now rewrite (promise_all_ok _ _ H).
Qed.

Lemma upload_outcome_nonempty (f : File) (fs : list File) (w : World) :
  upload_outcome (f :: fs) w = upload_settled (f :: fs) w.
Proof.
  unfold upload_outcome, run. cbn [foldl step handleImageUpload decoding].
  rewrite lookup_snoc_length, delete_snoc_length.
  now destruct w.
Qed.

(** C3, amended: a batch of [N >= 1] files that all decode, uploaded
    while there are [M] images, gives [M + N] images: the [M] earlier
    ones at their positions, followed by the decoded files in the order
    of the batch; [appState] becomes [photos_selected] and the result
    of an earlier generation is dropped.  The same holds for a pending
    batch that settles in any later state, with the images of that
    state as the earlier ones. *)
Theorem upload_nonempty_batch_appends
    (w : World) (files : list File) (base64Images : list JsString.t) :
  files <> [] ->
  map readAsDataURL files = map ReadOk base64Images ->
  upload_appends w files base64Images
  /\ uploadedImages (view (upload_outcome files w))
     = uploadedImages (view w) ++ base64Images
  /\ forall (w' : World) (k : nat),
       decoding w' !! k = Some files ->
       view (step (DecodeSettled k) w') = upload_then base64Images (view w')
       /\ uploadedImages (view (step (DecodeSettled k) w'))
          = uploadedImages (view w') ++ base64Images
       /\ appState (view (step (DecodeSettled k) w')) = photos_selected
       /\ generatedImage (view (step (DecodeSettled k) w')) = None.
Proof.
  intros NE Hok.
  assert (Hlen : length base64Images = length files).
  { apply (f_equal length) in Hok. rewrite !length_map in Hok. congruence. }
  destruct files as [|f fs]; [contradiction|].
  assert (Hv : view (upload_outcome (f :: fs) w) = upload_then base64Images (view w)).
  { rewrite upload_outcome_nonempty, (upload_settled_ok _ _ _ Hok). reflexivity. }
  split_and!.
  - unfold upload_appends. rewrite Hv. cbn [upload_then setGeneratedImage
      setAppState setUploadedImages uploadedImages appState generatedImage].
    split_and!; try reflexivity.
    + rewrite length_app. lia.
    + intros i Hi. now apply lookup_app_l.
    + intros j _. rewrite lookup_app_r by lia. f_equal. lia.
  - now rewrite Hv.
  - intros w' k Hk.
    assert (Hv' : view (step (DecodeSettled k) w') = upload_then base64Images (view w')).
    { cbn [step]. rewrite Hk, (upload_settled_ok _ _ _ Hok). reflexivity. }
    rewrite Hv'. split_and!; reflexivity.
Qed.

Lemma upload_nonempty_batch_appends_witness :
  [file_b; file_a] <> []
  /\ map readAsDataURL [file_b; file_a] = map ReadOk [photo_b; photo_a]
  /\ uploadedImages (view (upload_outcome [file_b; file_a] three_photos_world))
     = [photo_a; photo_b; photo_c; photo_b; photo_a].
Proof.
  assert (NE : [file_b; file_a] <> []) by discriminate.
  split; [exact NE|]. split; [reflexivity|].
  exact (proj1 (proj2 (upload_nonempty_batch_appends three_photos_world
                  [file_b; file_a] [photo_b; photo_a] NE eq_refl))).
Defined.

(** C3 as it is written fails for the batch of no file at all: the
    guard [e.target.files.length > 0] makes the handler do nothing, so
    [appState] stays [idle] instead of becoming [photos_selected]. *)
Lemma upload_empty_batch_not_selected :
  map readAsDataURL [] = map ReadOk []
  /\ ~ upload_appends initialWorld [] [].
Proof.
  split; [reflexivity|].
  intros (_ & _ & _ & Hst & _). discriminate Hst.
Qed.

(** C8: when a file of the batch fails to decode the component state
    (images, prompt, result, [appState], loading flag) is the one
    before, nothing of the batch is appended, and the alert is shown;
    this holds for the batch settling at once and for a pending batch
    settling in any later state. *)
Theorem upload_failure_is_all_or_nothing (w : World) (files : list File) :
  (exists f, f ∈ files /\ readAsDataURL f = ReadFailed) ->
  (view (upload_outcome files w) = view w
   /\ alerts (upload_outcome files w) = alerts w ++ [uploadAlert]
   /\ inflight (upload_outcome files w) = inflight w)
  /\ forall (w' : World) (k : nat),
       decoding w' !! k = Some files ->
       view (step (DecodeSettled k) w') = view w'
       /\ alerts (step (DecodeSettled k) w') = alerts w' ++ [uploadAlert]
       /\ inflight (step (DecodeSettled k) w') = inflight w'
       /\ decoding (step (DecodeSettled k) w') = delete k (decoding w').
Proof.
  intros (f & Hin & Hf).
  assert (Hall : promise_all (map readAsDataURL files) = None).
  { apply promise_all_failed. rewrite <- Hf. now apply list_elem_of_fmap_2. }
  split.
  - destruct files as [|f0 fs]; [inversion Hin|].
    rewrite upload_outcome_nonempty. unfold upload_settled. now rewrite Hall.
  - intros w' k Hk. simpl. rewrite Hk. unfold upload_settled.
    now rewrite Hall.
Qed.

Lemma upload_failure_is_all_or_nothing_witness :
  (exists f, f ∈ [file_a; file_bad; file_b] /\ readAsDataURL f = ReadFailed)
  /\ view (upload_outcome [file_a; file_bad; file_b] three_photos_world) = three_photos
  /\ alerts (upload_outcome [file_a; file_bad; file_b] three_photos_world) = [uploadAlert].
Proof.
  assert (H : exists f, f ∈ [file_a; file_bad; file_b] /\ readAsDataURL f = ReadFailed).
  { exists file_bad. split; [|reflexivity]. apply elem_of_cons. right. apply elem_of_cons. now left. }
  split; [exact H|].
  pose proof (proj1 (upload_failure_is_all_or_nothing three_photos_world _ H)) as P.
  exact (conj (proj1 P) (proj1 (proj2 P))).
Defined.

(** ** The invariant between [appState] and the images *)

Lemma upload_then_consistent (imgs : list JsString.t) (v : AppModel) :
  ui_consistent (upload_then imgs v).
Proof.
  intros _. simpl. split; discriminate.
Qed.

Lemma handleRemoveImage_consistent (i : Z) (v : AppModel) :
  ui_consistent (handleRemoveImage i v).
Proof.
  intros E. rewrite handleRemoveImage_appState, E. split; discriminate.
Qed.

Lemma handleReset_consistent (v : AppModel) : ui_consistent (handleReset v).
Proof.
  intros _. simpl. split; discriminate.
Qed.

Lemma handleGenerateClick_consistent (w : World) :
  ui_consistent (view w) -> ui_consistent (view (handleGenerateClick w)).
Proof.
  intros Hc. unfold handleGenerateClick.
  destruct (uploadedImages (view w)) as [|x r] eqn:E; [assumption|].
  intros E'. simpl in E'. congruence.
Qed.

Lemma step_consistent (e : Event) (w : World) :
  ui_consistent (view w) ->
  match e with
  | GenerateSettled _ _ => uploadedImages (view w) <> []
  | _ => True
  end ->
  ui_consistent (view (step e w)).
Proof.
  intros Hc Hs. destruct e as [files|k|i|p| |k o|]; simpl.
  - unfold handleImageUpload. now destruct files as [[|f fs]|].
  - destruct (decoding w !! k) as [files|]; [|assumption].
    unfold upload_settled.
    destruct (promise_all _); [apply upload_then_consistent | assumption].
  - apply handleRemoveImage_consistent.
  - exact Hc.
  - now apply handleGenerateClick_consistent.
  - destruct (inflight w !! k); [|assumption].
    intros E. destruct o; simpl in E; contradiction.
  - apply handleReset_consistent.
Qed.

Lemma run_consistent (es : list Event) (w : World) :
  ui_consistent (view w) ->
  settles_with_images es w ->
  ui_consistent (view (run es w)).
Proof.
  revert w. induction es as [|e es IH]; intros w Hc Hs; [assumption|].
  destruct Hs as [He Hs]. apply (IH (step e w)); [|assumption].
  now apply step_consistent.
Qed.

(** C7, amended: in every state reached from the initial one by
    uploads, removals, prompt edits, generate clicks, resets and the
    settling of pending work, provided each generation call settles
    while there is at least one image, [appState] is neither
    [generating] nor [results_shown] when there is no image. *)
Theorem reachable_consistent (es : list Event) :
  settles_with_images es initialWorld ->
  ui_consistent (view (run es initialWorld)).
Proof.
  apply run_consistent. intros _. split; discriminate.
Qed.

Lemma reachable_consistent_witness :
  settles_with_images plain_run initialWorld
  /\ ui_consistent (view (run plain_run initialWorld)).
Proof.
  assert (H : settles_with_images plain_run initialWorld).
  { simpl. split_and!; try exact I. discriminate. }
  split; [exact H|].
  exact (reachable_consistent plain_run H).
Defined.

(** C7 as it is written fails: nothing cancels a generation call, so
    a call that is still pending when the user starts over settles on
    a state without images and sets [appState] to [results_shown].
    Every event of the run is one the page offers at that point. *)
Lemma late_result_breaks_consistency :
  all_offered late_result_run initialWorld = true
  /\ uploadedImages (view (run late_result_run initialWorld)) = []
  /\ appState (view (run late_result_run initialWorld)) = results_shown
  /\ ~ ui_consistent (view (run late_result_run initialWorld)).
Proof.
  split_and!; try (vm_compute; reflexivity).
  intros H. destruct (H eq_refl) as [_ Hr]. now apply Hr.
Qed.

(** ** Strings *)

Section Trim.

Lemma trimStart_id (s : JsString.t) :
  head_is_ws s = false -> trimStart s = s.
Proof.
  destruct s as [|c r]; simpl; [reflexivity|]. now intros ->.
Qed.

Lemma trimStart_head (s : JsString.t) (c : N) (r : JsString.t) :
  trimStart s = c :: r -> is_ws c = false.
Proof.
  induction s as [|d s IH]; simpl; [discriminate|].
  destruct (is_ws d) eqn:E; [assumption|].
  intros [= <- <-]. exact E.
Qed.

Lemma trimStart_app (x y : JsString.t) :
  trimStart x <> [] -> trimStart (x ++ y) = trimStart x ++ y.
Proof.
  induction x as [|c x IH]; simpl; [contradiction|].
  destruct (is_ws c); [assumption | reflexivity].
Qed.

Lemma trimEnd_app (x y : JsString.t) :
  trimEnd y <> [] -> trimEnd (x ++ y) = x ++ trimEnd y.
Proof.
  unfold trimEnd. intros H.
  rewrite rev_app_distr, trimStart_app.
  - now rewrite rev_app_distr, rev_involutive.
  - intros E. apply H. now rewrite E.
Qed.

Lemma trimEnd_cons (c : N) (s : JsString.t) :
  is_ws c = false -> trimEnd (c :: s) = c :: trimEnd s.
Proof.
  intros Hc. unfold trimEnd. simpl.
  destruct (trimStart (rev s)) as [|d r] eqn:E.
  - assert (E' : trimStart (rev s ++ [c]) = [c]).
    { clear -E Hc. induction (rev s) as [|e l IH]; simpl in *.
      - now rewrite Hc.
      - destruct (is_ws e); [now apply IH | discriminate]. }
    now rewrite E'.
  - rewrite trimStart_app by (rewrite E; discriminate).
    rewrite E, rev_app_distr. reflexivity.
Qed.

Lemma trim_head (s : JsString.t) (c : N) (r : JsString.t) :
  trim s = c :: r -> is_ws c = false.
Proof.
  unfold trim. destruct (trimStart s) as [|d q] eqn:E; [discriminate|].
  pose proof (trimStart_head _ _ _ E) as Hd.
  rewrite trimEnd_cons by assumption. now intros [= <- _].
Qed.

(** A template [`${a} ${x} ${b}`.trim()] whose first part starts
    with a visible character and whose last part has one. *)
Lemma trim_spaced3 (a x b : JsString.t) :
  a <> [] -> head_is_ws a = false -> trimEnd b <> [] ->
  trim (spaced3 a x b) = a ++ SP :: x ++ SP :: trimEnd b.
Proof.
  intros Ha Hh Hb. unfold trim, spaced3.
  rewrite trimStart_id by (destruct a; [contradiction | exact Hh]).
  replace (a ++ SP :: x ++ SP :: b) with ((a ++ SP :: x ++ [SP]) ++ b).
  - rewrite trimEnd_app by assumption.
    rewrite <- !app_assoc. simpl. now rewrite <- app_assoc.
  - rewrite <- !app_assoc. simpl. now rewrite <- app_assoc.
Qed.

End Trim.

Section Includes.

Lemma starts_with_spec (p s : JsString.t) :
  starts_with p s = true <-> exists r, s = p ++ r.
Proof.
  revert s. induction p as [|a p IH]; intros s; simpl.
  - split; [intros _; now exists s | reflexivity].
  - destruct s as [|b s].
    + split; [discriminate | intros [r Hr]; discriminate].
    + rewrite andb_true_iff, N.eqb_eq, IH. split.
      * intros [-> [r ->]]. now exists r.
      * intros [r [= -> ->]]. split; [reflexivity | now exists r].
Qed.

Lemma includes_spec (s p : JsString.t) :
  includes s p = true <-> exists l r, s = l ++ p ++ r.
Proof.
  induction s as [|c s IH]; simpl.
  - rewrite orb_false_r, starts_with_spec. split.
    + intros [r Hr]. now exists [], r.
    + intros (l & r & H). destruct l; [now exists r | discriminate].
  - rewrite orb_true_iff, starts_with_spec, IH. split.
    + intros [[r Hr] | (l & r & ->)].
      * now exists [], r.
      * now exists (c :: l), r.
    + intros (l & r & H). destruct l as [|d l]; simpl in H.
      * left. now exists r.
      * right. injection H as -> ->. now exists l, r.
Qed.

Lemma includes_middle (l p r : JsString.t) : includes (l ++ p ++ r) p = true.
Proof. apply includes_spec. now exists l, r. Qed.

Lemma includes_part (s a p b : JsString.t) :
  includes s (a ++ p ++ b) = true -> includes s p = true.
Proof.
  rewrite !includes_spec. intros (l & r & ->).
  exists (l ++ a), (b ++ r). now rewrite <- !app_assoc.
Qed.

(** A pattern whose first character does not occur in [x] cannot
    start inside [x]. *)
Lemma includes_skip (x s p : JsString.t) :
  first_not_in p x = true ->
  includes (x ++ s) p = true -> includes s p = true.
Proof.
  destruct p as [|g p]; [discriminate|]. unfold first_not_in, lacks.
  induction x as [|c x IH]; simpl; [intros _ H; exact H|].
  rewrite andb_true_iff. intros [Hc Hx].
  rewrite N.eqb_sym. destruct (c =? g); [discriminate|]. simpl. now apply IH.
Qed.

(** A pattern without the character [d] cannot reach over a [d]. *)
Lemma starts_with_before (x y p : JsString.t) (d : N) :
  lacks d p = true ->
  starts_with p (x ++ d :: y) = true -> starts_with p x = true.
Proof.
  revert p. induction x as [|c x IH]; intros [|a p]; simpl; try reflexivity.
  - rewrite andb_true_iff. intros [Ha _]. destruct (a =? d); discriminate.
  - rewrite !andb_true_iff. intros [_ Hp] [Hac H].
    split; [assumption | now apply IH].
Qed.

Lemma includes_split (x y p : JsString.t) (d : N) :
  lacks d p = true ->
  includes (x ++ d :: y) p = true ->
  includes x p = true \/ includes y p = true.
Proof.
  intros Hp. induction x as [|c x IH].
  - cbn [app includes]. rewrite orb_true_iff. intros [H | H]; [|now right].
    left. cbn [includes]. rewrite orb_false_r.
    now apply (starts_with_before [] y p d).
  - cbn [app includes]. rewrite !orb_true_iff. intros [H | H].
    + left. left. now apply (starts_with_before (c :: x) y p d).
    + destruct (IH H) as [Hx | Hy]; [left; now right | now right].
Qed.

End Includes.

Section CollapseRuns.

Lemma collapse_runs_visible (b : bool) (c : N) (s : JsString.t) :
  is_ws c = false -> collapse_runs b (c :: s) = c :: collapse_runs false s.
Proof. intros H. simpl. now rewrite H. Qed.

Lemma collapse_runs_snoc (b : bool) (s : JsString.t) (d : N) :
  is_ws d = false -> collapse_runs b (s ++ [d]) = collapse_runs b s ++ [d].
Proof.
  intros Hd. revert b. induction s as [|c s IH]; intros b; simpl.
  - now rewrite Hd.
  - destruct (is_ws c); [destruct b|]; now rewrite IH.
Qed.

(** Normalising after a prefix that ends in a space: a part that
    starts with a visible character is normalised on its own. *)
Lemma collapse_runs_app (b : bool) (x : JsString.t) (c : N) (s : JsString.t) :
  is_ws c = false ->
  collapse_runs b (x ++ c :: s) = collapse_runs b x ++ c :: collapse_runs false s.
Proof.
  intros Hc. revert b. induction x as [|e x IH]; intros b.
  - now apply collapse_runs_visible.
  - simpl. destruct (is_ws e); [destruct b|]; now rewrite IH.
Qed.

End CollapseRuns.

(** ** The prompt composer *)

Lemma nonempty_true {A} (l : list A) : nonempty l = true -> l <> [].
Proof. now destruct l. Qed.

Lemma rules_runs_are_long : replace_ws_runs rules = normalize_whitespace rules.
Proof. vm_compute. reflexivity. Qed.

Lemma fixed_clauses_normalized :
  normalize_whitespace baseInstruction = baseInstruction
  /\ normalize_whitespace fallbackScene = fallbackScene
  /\ normalize_whitespace scenePrefix = scenePrefix.
Proof. split_and!; vm_compute; reflexivity. Qed.

Lemma fallbackScene_parts :
  fallbackScene = scenePrefix ++ fallbackWording ++ lit ".".
Proof. vm_compute. reflexivity. Qed.

Lemma rulesFlat_visible : rulesFlat <> [].
Proof. apply nonempty_true. vm_compute. reflexivity. Qed.

(** The composed prompt: the objective, the scene clause and the
    flattened rules, with one space put between them. *)
Lemma createFinalPrompt_shape (p : JsString.t) :
  createFinalPrompt p = baseInstruction ++ SP :: userScene p ++ SP :: rulesFlat.
Proof.
  unfold createFinalPrompt. apply trim_spaced3.
  - apply nonempty_true. vm_compute. reflexivity.
  - vm_compute. reflexivity.
  - exact rulesFlat_visible.
Qed.

Lemma createFinalPrompt_normalizing_shape (p : JsString.t) :
  createFinalPrompt_normalizing p
  = baseInstruction ++ SP :: normalize_whitespace (userScene p) ++ SP :: rulesFlat.
Proof.
  unfold createFinalPrompt_normalizing.
  rewrite (proj1 fixed_clauses_normalized), <- rules_runs_are_long.
  apply trim_spaced3.
  - apply nonempty_true. vm_compute. reflexivity.
  - vm_compute. reflexivity.
  - exact rulesFlat_visible.
Qed.

Lemma userScene_blank (p : JsString.t) :
  trim p = [] -> userScene p = fallbackScene.
Proof. unfold userScene. now intros ->. Qed.

Lemma userScene_text (p : JsString.t) :
  trim p <> [] -> userScene p = scenePrefix ++ trim p ++ lit ".".
Proof. unfold userScene. now destruct (trim p). Qed.

Lemma userScene_normalized (p : JsString.t) :
  normalize_whitespace (userScene p) = userScene p
  <-> normalize_whitespace (trim p) = trim p.
Proof.
  destruct (trim p) as [|c r] eqn:E.
  - rewrite (userScene_blank p E).
    split; intros _; [reflexivity | apply fixed_clauses_normalized].
  - assert (Hc : is_ws c = false) by exact (trim_head _ _ _ E).
    rewrite userScene_text by (rewrite E; discriminate). rewrite E.
    unfold normalize_whitespace.
    change (scenePrefix ++ (c :: r) ++ lit ".")
      with (scenePrefix ++ c :: (r ++ [46])).
    rewrite collapse_runs_app by assumption.
    rewrite collapse_runs_snoc by reflexivity.
    rewrite collapse_runs_visible by assumption.
    pose proof (proj2 (proj2 fixed_clauses_normalized)) as Hp.
    unfold normalize_whitespace in Hp. rewrite Hp.
    split.
    + intros H. apply app_inv_head in H. injection H as H.
      apply app_inv_tail in H. now rewrite H.
    + intros H. injection H as H. now rewrite H.
Qed.

(** C2, amended: the composed prompt is the objective, the scene
    clause and the rules joined by single spaces; every run of
    whitespace of the fixed rules block is collapsed to one space
    before the joining, while the user's text is trimmed at both ends
    and put into the scene clause as typed.  The result is the clause
    by clause normalised composition exactly when the trimmed text has
    no whitespace that normalising would change. *)
Theorem createFinalPrompt_normalizes_rules (p : JsString.t) :
  createFinalPrompt p
  = baseInstruction ++ SP :: userScene p ++ SP :: trimEnd (normalize_whitespace rules)
  /\ (trim p <> [] -> userScene p = scenePrefix ++ trim p ++ lit ".")
  /\ (normalize_whitespace (trim p) = trim p ->
      createFinalPrompt p = createFinalPrompt_normalizing p)
  /\ (createFinalPrompt p = createFinalPrompt_normalizing p ->
      normalize_whitespace (trim p) = trim p).
Proof.
  split_and!.
  - rewrite <- rules_runs_are_long. apply createFinalPrompt_shape.
  - apply userScene_text.
  - intros H. apply userScene_normalized in H.
    now rewrite createFinalPrompt_shape, createFinalPrompt_normalizing_shape, H.
  - rewrite createFinalPrompt_shape, createFinalPrompt_normalizing_shape.
    intros H. apply app_inv_head in H. injection H as H.
    apply app_inv_tail in H. now apply userScene_normalized.
Qed.

Lemma createFinalPrompt_normalizes_rules_witness :
  normalize_whitespace (trim beach) = trim beach
  /\ createFinalPrompt beach = createFinalPrompt_normalizing beach.
Proof.
  assert (H : normalize_whitespace (trim beach) = trim beach) by reflexivity.
  split; [exact H|].
  exact (proj1 (proj2 (proj2 (createFinalPrompt_normalizes_rules beach))) H).
Defined.

(** C2 as it is written fails: two spaces typed inside the prompt are
    still two spaces in the composed string, which therefore is not the
    composition of whitespace-normalised clauses. *)
Lemma user_whitespace_not_collapsed :
  includes (createFinalPrompt two_spaces) two_spaces = true
  /\ includes (createFinalPrompt_normalizing two_spaces) two_spaces = false
  /\ createFinalPrompt two_spaces <> createFinalPrompt_normalizing two_spaces.
Proof.
  split_and!; try (vm_compute; reflexivity).
  intros H. apply (f_equal length) in H. vm_compute in H. discriminate H.
Qed.

(** C5, amended: for a prompt that is blank after trimming the
    composed string contains the fallback clause; otherwise it
    contains the trimmed text of the user character for character, and
    it does not contain the fallback clause unless the user's own text
    contains the fallback sentence. *)
Theorem scene_clause_of_prompt (p : JsString.t) :
  (trim p = [] -> includes (createFinalPrompt p) fallbackScene = true)
  /\ (trim p <> [] ->
      includes (createFinalPrompt p) (trim p) = true
      /\ (includes (trim p) fallbackWording = false ->
          includes (createFinalPrompt p) fallbackScene = false)).
Proof.
  split.
  - intros E. rewrite createFinalPrompt_shape, (userScene_blank p E).
    apply includes_spec. exists (baseInstruction ++ [SP]), (SP :: rulesFlat).
    now rewrite <- app_assoc.
  - intros NE.
    assert (Hshape : createFinalPrompt p
      = (baseInstruction ++ SP :: scenePrefix) ++ trim p ++ 46 :: SP :: rulesFlat).
    { rewrite createFinalPrompt_shape, (userScene_text p NE).
      change (lit ".") with [46].
      repeat rewrite <- app_assoc. reflexivity. }
    split.
    + rewrite Hshape. apply includes_middle.
    + intros Hw.
      destruct (includes (createFinalPrompt p) fallbackScene) eqn:Hf; [|reflexivity].
      rewrite fallbackScene_parts in Hf. apply includes_part in Hf.
      rewrite Hshape in Hf.
      apply includes_skip in Hf; [|vm_compute; reflexivity].
      apply includes_split in Hf; [|vm_compute; reflexivity].
      destruct Hf as [Hf | Hf]; [congruence|].
      apply (includes_skip [SP]) in Hf; [|vm_compute; reflexivity].
      assert (Hr : includes rulesFlat fallbackWording = false)
        by (vm_compute; reflexivity).
      congruence.
Qed.

Lemma scene_clause_of_prompt_witness :
  trim beach <> []
  /\ includes (trim beach) fallbackWording = false
  /\ includes (createFinalPrompt beach) beach = true
  /\ includes (createFinalPrompt beach) fallbackScene = false.
Proof.
  assert (NE : trim beach <> []) by discriminate.
  assert (Hw : includes (trim beach) fallbackWording = false) by reflexivity.
  split; [exact NE|]. split; [exact Hw|].
  pose proof (proj2 (scene_clause_of_prompt beach) NE) as [Ht Hf].
  split; [exact Ht | exact (Hf Hw)].
Defined.

(** C5 as it is written fails for a user who types the fallback
    sentence: the scene clause built from that text is the fallback
    clause itself. *)
Lemma typed_fallback_is_contained :
  trim fallbackWording <> []
  /\ includes (createFinalPrompt fallbackWording) fallbackScene = true
  /\ ~ scene_clause_as_specified fallbackWording.
Proof.
  assert (NE : trim fallbackWording <> []).
  { apply nonempty_true. vm_compute. reflexivity. }
  assert (Hin : includes (createFinalPrompt fallbackWording) fallbackScene = true)
    by (vm_compute; reflexivity).
  split_and!; try assumption.
  intros [_ H]. destruct (H NE) as [_ Hf]. congruence.
Qed.

(** C9 as it is written fails in its second half: the composer
    applied to a string it has composed does not return that string,
    it wraps it once more. *)
Remark createFinalPrompt_wraps_its_output :
  createFinalPrompt (createFinalPrompt []) <> createFinalPrompt [].
Proof.
  intros H. apply (f_equal length) in H. vm_compute in H. discriminate H.
Qed.


(** * Further properties of the component *)

(** ** Invariants of every run *)

Lemma run_snoc (es : list Event) (e : Event) (w : World) :
  run (es ++ [e]) w = step e (run es w).
Proof. unfold run. now rewrite foldl_app. Qed.

(** A property of the initial world that every event keeps holds
    after every run. *)
Lemma run_invariant (P : World -> Prop) :
  P initialWorld ->
  (forall e w, P w -> P (step e w)) ->
  forall es, P (run es initialWorld).
Proof.
  intros H0 Hstep es. induction es as [|e es IH] using rev_ind.
  - exact H0.
  - rewrite run_snoc. now apply Hstep.
Qed.

(** The cases of one event, with pending work looked up and the
    guards of the handlers decided. *)
Ltac view_simpl :=
  cbn [with_view view upload_then generate_settled handleReset
       setGeneratedImage setAppState setIsLoading setUploadedImages
       setUserPrompt uploadedImages userPrompt generatedImage isLoading
       appState inflight decoding alerts] in *.

Ltac event_cases e w :=
  destruct e as [[[|?f ?fs]|]|?k|?i|?p| |?k [?u|[?m|]]|];
  cbn [step handleImageUpload];
  [ | | | destruct (decoding w !! k) as [?files|] eqn:?Hk in |- *;
          [unfold upload_settled;
           destruct (promise_all _) as [?imgs|] eqn:?Hall in |- *|]
    | | | unfold handleGenerateClick;
          destruct (uploadedImages (view w)) as [|?x ?r] eqn:?Himgs in |- *
    | destruct (inflight w !! k) as [?c|] eqn:?Hk in |- *
    | destruct (inflight w !! k) as [?c|] eqn:?Hk in |- *
    | destruct (inflight w !! k) as [?c|] eqn:?Hk in |- *
    | ];
  view_simpl.

Lemma step_generating_sound (e : Event) (w : World) :
  generating_sound w -> generating_sound (step e w).
Proof.
  unfold generating_sound. intros H.
  event_cases e w; try assumption; try discriminate.
  - rewrite handleRemoveImage_appState.
    destruct (handleRemoveImage_others i (view w)) as (_ & Hg & Hl).
    rewrite Hg, Hl.
    destruct (uploadedImages (handleRemoveImage i (view w))) eqn:E; [discriminate|].
    intros Hs. destruct (H Hs) as (_ & ? & ?). split_and!; [discriminate | assumption..].
  - intros _. now rewrite Himgs.
Qed.

Lemma promise_all_length (rs : list ReadResult) (imgs : list JsString.t) :
  promise_all rs = Some imgs -> length imgs = length rs.
Proof.
  revert imgs. induction rs as [|[u|] rs IH]; intros imgs; simpl.
  - now intros [= <-].
  - destruct (promise_all rs) as [us|]; [|discriminate].
    intros [= <-]. simpl. now rewrite (IH us).
  - discriminate.
Qed.

Lemma promise_all_nonempty (files : list File) (imgs : list JsString.t) :
  files <> [] -> promise_all (map readAsDataURL files) = Some imgs -> imgs <> [].
Proof.
  intros NE H E. apply promise_all_length in H.
  rewrite E, length_map in H. destruct files; [contradiction | discriminate].
Qed.

Lemma step_pending_sound (e : Event) (w : World) :
  pending_sound w -> pending_sound (step e w).
Proof.
  unfold pending_sound. intros [Hc Hd].
  event_cases e w; try (split; assumption).
  - split; [assumption|]. apply Forall_app. split; [assumption|].
    now apply Forall_singleton.
  - split; [assumption | now apply Forall_delete].
  - split; [assumption | now apply Forall_delete].
  - split; [|assumption]. apply Forall_app. split; [assumption|].
    apply Forall_singleton. split; cbn [call_images call_prompt].
    + discriminate.
    + now exists (userPrompt (view w)).
  - split; [now apply Forall_delete | assumption].
  - split; [now apply Forall_delete | assumption].
  - split; [now apply Forall_delete | assumption].
Qed.

Lemma step_selection_sound (e : Event) (w : World) :
  pending_sound w -> selection_sound w -> selection_sound (step e w).
Proof.
  unfold selection_sound. intros [_ Hd] H.
  event_cases e w; try assumption; try discriminate.
  - intros _ E. apply app_eq_nil in E as [_ E].
    assert (NE : files <> []).
    { rewrite Forall_forall in Hd. apply Hd. eapply list_elem_of_lookup_2, Hk. }
    exact (promise_all_nonempty files imgs NE Hall E).
  - rewrite handleRemoveImage_appState.
    destruct (uploadedImages (handleRemoveImage i (view w))) eqn:E; discriminate.
Qed.

Lemma step_loading_sound (e : Event) (w : World) :
  loading_sound w -> loading_sound (step e w).
Proof.
  unfold loading_sound. intros H.
  event_cases e w; try assumption; try discriminate.
  - destruct (handleRemoveImage_others i (view w)) as (_ & _ & Hl). now rewrite Hl.
  - intros _ E. now apply app_eq_nil in E as [_ E].
Qed.

Lemma step_shown_sound (e : Event) (w : World) :
  shown_sound w -> shown_sound (step e w).
Proof.
  unfold shown_sound. intros H.
  event_cases e w; try assumption; try discriminate.
  - rewrite handleRemoveImage_appState.
    destruct (handleRemoveImage_others i (view w)) as (_ & Hg & _). rewrite Hg.
    destruct (uploadedImages (handleRemoveImage i (view w))); [discriminate | assumption].
  - intros _. eexists. split; [reflexivity|]. left. now eexists.
  - intros _. eexists. split; [reflexivity|]. right. now eexists.
  - intros _. eexists. split; [reflexivity|]. right. now eexists.
Qed.

Lemma step_result_shape (e : Event) (w : World) :
  result_shape (generatedImage (view w)) ->
  result_shape (generatedImage (view (step e w))).
Proof.
  intros H.
  event_cases e w; try assumption.
  - now left.
  - destruct (handleRemoveImage_others i (view w)) as (_ & Hg & _). now rewrite Hg.
  - right. now left.
  - right. right. eexists. split; [reflexivity|]. left. now eexists.
  - right. right. eexists. split; [reflexivity|]. right. now eexists.
  - right. right. eexists. split; [reflexivity|]. right. now eexists.
  - now left.
Qed.

(** All of the conditions at once. *)
Lemma run_sound (es : list Event) : sound (run es initialWorld).
Proof.
  apply (run_invariant sound).
  - split_and!.
    + split; constructor.
    + discriminate.
    + discriminate.
    + discriminate.
    + discriminate.
    + now left.
  - intros e w (Hp & Hs & Hg & Hl & Hh & Hr). split_and!.
    + now apply step_pending_sound.
    + now apply step_selection_sound.
    + now apply step_generating_sound.
    + now apply step_loading_sound.
    + now apply step_shown_sound.
    + now apply step_result_shape.
Qed.

Lemma nonempty_iff {A} (l : list A) : nonempty l = true <-> l <> [].
Proof. destruct l; simpl; split; (discriminate || contradiction || reflexivity). Qed.

(** X1: whenever [appState] is [generating], in any run at all, there
    is at least one image, the loading flag is set, the stored result
    is the pending one, a [generateImage] call is in flight, the result
    block with its card is what the page draws, and a download does
    nothing. *)
Theorem generating_is_backed (es : list Event) :
  appState (view (run es initialWorld)) = generating ->
  uploadedImages (view (run es initialWorld)) <> []
  /\ isLoading (view (run es initialWorld)) = true
  /\ generatedImage (view (run es initialWorld)) = Some image_pending
  /\ inflight (run es initialWorld) <> []
  /\ screens (view (run es initialWorld)) = [ResultScreen]
  /\ shows_card (view (run es initialWorld)) = true
  /\ handleDownloadIndividualImage (view (run es initialWorld)) = None.
Proof.
  destruct (run_sound es) as (_ & _ & Hg & Hl & _).
  intros Hs. destruct (Hg Hs) as (Hi & Hld & Hr).
  pose proof (Hl Hld) as Hc.
  apply nonempty_iff in Hi.
  unfold screens, shows_card, shows_upload, shows_selection, shows_result,
    handleDownloadIndividualImage.
  rewrite Hs, Hi, Hr. split_and!; try reflexivity; try assumption.
  now apply nonempty_iff.
Qed.

Lemma generating_is_backed_witness :
  appState (view (run one_photo_run initialWorld)) = generating
  /\ inflight (run one_photo_run initialWorld) <> []
  /\ screens (view (run one_photo_run initialWorld)) = [ResultScreen].
Proof.
  assert (H : appState (view (run one_photo_run initialWorld)) = generating)
    by reflexivity.
  split; [exact H|].
  pose proof (generating_is_backed one_photo_run H) as (_ & _ & _ & Hc & Hs & _).
  exact (conj Hc Hs).
Defined.

(** X2: in any run the selection screen is never due without a photo,
    at most one of the three blocks is drawn, and the page is empty
    exactly when [appState] is [results_shown] and no image is left;
    in a run whose generation calls settle while there are images some
    block is always drawn. *)
Theorem one_screen_at_a_time (es : list Event) :
  (appState (view (run es initialWorld)) = photos_selected ->
     uploadedImages (view (run es initialWorld)) <> [])
  /\ (length (screens (view (run es initialWorld))) <= 1)%nat
  /\ (screens (view (run es initialWorld)) = [] <->
       appState (view (run es initialWorld)) = results_shown
       /\ uploadedImages (view (run es initialWorld)) = [])
  /\ (settles_with_images es initialWorld ->
       exists s, screens (view (run es initialWorld)) = [s]).
Proof.
  destruct (run_sound es) as (_ & Hsel & Hgen & _).
  assert (Hcons : settles_with_images es initialWorld ->
                  ui_consistent (view (run es initialWorld))).
  { apply run_consistent. intros _. split; discriminate. }
  unfold selection_sound, generating_sound, ui_consistent in *.
  unfold screens, shows_upload, shows_selection, shows_result.
  destruct (appState (view (run es initialWorld)));
    destruct (uploadedImages (view (run es initialWorld))) as [|x r];
    try (exfalso; now apply (Hsel eq_refl));
    try (exfalso; destruct (Hgen eq_refl) as [H _]; now apply H);
    cbn; split_and!; try (intros; discriminate); try lia;
    try (split; [discriminate | intros [? ?]; discriminate]);
    try (intros; now eexists).
  - intros H. destruct (Hcons H eq_refl) as [_ Hr]. now destruct Hr.
Qed.

Lemma one_screen_at_a_time_witness :
  settles_with_images plain_run initialWorld
  /\ exists s, screens (view (run plain_run initialWorld)) = [s].
Proof.
  assert (H : settles_with_images plain_run initialWorld).
  { simpl. split_and!; try exact I. discriminate. }
  split; [exact H|].
  exact (proj2 (proj2 (proj2 (one_screen_at_a_time plain_run))) H).
Defined.

(** X3: in any run, while the loading flag is set a [generateImage]
    call is in flight, so its settling will clear the flag. *)
Theorem loading_flag_has_call (es : list Event) :
  isLoading (view (run es initialWorld)) = true ->
  inflight (run es initialWorld) <> [].
Proof.
  destruct (run_sound es) as (_ & _ & _ & Hl & _). exact Hl.
Qed.

Lemma loading_flag_has_call_witness :
  isLoading (view (run one_photo_run initialWorld)) = true
  /\ inflight (run one_photo_run initialWorld) <> [].
Proof.
  assert (H : isLoading (view (run one_photo_run initialWorld)) = true)
    by reflexivity.
  split; [exact H|].
  exact (loading_flag_has_call one_photo_run H).
Defined.



(** X5: [generateImage] is never called without an image, and its
    prompt is always a composed one, which starts with the objective
    clause; no empty batch ever waits for decoding. *)
Theorem calls_carry_images (es : list Event) :
  (forall c, c ∈ inflight (run es initialWorld) ->
     call_images c <> []
     /\ exists userPrompt rest,
          call_prompt c = createFinalPrompt userPrompt
          /\ call_prompt c = baseInstruction ++ rest)
  /\ (forall files, files ∈ decoding (run es initialWorld) -> files <> []).
Proof.
  destruct (run_sound es) as ((Hc & Hd) & _).
  rewrite Forall_forall in Hc. rewrite Forall_forall in Hd. split; [|exact Hd].
  intros c Hin. destruct (Hc c Hin) as (Hi & p & Hp).
  split; [exact Hi|]. exists p. eexists. split; [exact Hp|].
  rewrite Hp. apply createFinalPrompt_shape.
Qed.

Lemma calls_carry_images_witness :
  (exists c, c ∈ inflight (run one_photo_run initialWorld))
  /\ forall c, c ∈ inflight (run one_photo_run initialWorld) -> call_images c <> [].
Proof.
  split.
  - eexists. apply elem_of_cons. left. reflexivity.
  - intros c Hin.
    exact (proj1 (proj1 (calls_carry_images one_photo_run) c Hin)).
Defined.

(** X6: a run whose generation calls settle while there are images
    never gets stuck: the page offers a control, or something pending
    can settle. *)
Theorem consistent_runs_go_on (es : list Event) :
  settles_with_images es initialWorld ->
  can_go_on (run es initialWorld).
Proof.
  intros Hs.
  assert (Hcons : ui_consistent (view (run es initialWorld))).
  { apply run_consistent; [|exact Hs]. intros _. split; discriminate. }
  destruct (run_sound es) as (_ & Hsel & Hgen & Hl & _).
  unfold selection_sound, generating_sound, loading_sound, ui_consistent in *.
  unfold can_go_on.
  destruct (appState (view (run es initialWorld))) eqn:Ea.
  - exists (ImageUpload None). unfold offered. now rewrite Ea.
  - exists Reset. unfold offered. rewrite Ea.
    apply nonempty_iff in Hsel; [|reflexivity]. now rewrite Hsel.
  - exists (GenerateSettled 0 (Resolved [])). unfold offered.
    destruct (Hgen eq_refl) as (_ & Hld & _). specialize (Hl Hld).
    destruct (inflight (run es initialWorld)); [contradiction | reflexivity].
  - exists Reset. unfold offered. rewrite Ea.
    destruct (uploadedImages (view (run es initialWorld))) eqn:Ei.
    + destruct (Hcons eq_refl) as [_ Hr]. now destruct Hr.
    + reflexivity.
Qed.

Lemma consistent_runs_go_on_witness :
  settles_with_images plain_run initialWorld
  /\ can_go_on (run plain_run initialWorld).
Proof.
  assert (H : settles_with_images plain_run initialWorld).
  { simpl. split_and!; try exact I. discriminate. }
  split; [exact H|].
  exact (consistent_runs_go_on plain_run H).
Defined.

(** X7: when [appState] is [results_shown], no image is left and
    nothing is pending, the page offers no event at all: a generation
    result that arrives after a reset leaves nothing to click. *)
Theorem late_result_is_a_dead_end (w : World) (e : Event) :
  appState (view w) = results_shown ->
  uploadedImages (view w) = [] ->
  decoding w = [] ->
  inflight w = [] ->
  offered w e = false.
Proof.
  intros Ha Hi Hd Hf. unfold offered. rewrite Ha, Hi, Hd, Hf.
  destruct e; reflexivity.
Qed.

Lemma late_result_is_a_dead_end_witness :
  appState (view (run late_result_run initialWorld)) = results_shown
  /\ uploadedImages (view (run late_result_run initialWorld)) = []
  /\ decoding (run late_result_run initialWorld) = []
  /\ inflight (run late_result_run initialWorld) = []
  /\ offered (run late_result_run initialWorld) Reset = false.
Proof.
  split; [reflexivity|]. split; [reflexivity|].
  split; [reflexivity|]. split; [reflexivity|].
  exact (late_result_is_a_dead_end (run late_result_run initialWorld) Reset
           eq_refl eq_refl eq_refl eq_refl).
Defined.

(** ** Downloading *)

(** X8: in any run a download happens exactly when the stored result
    is [done] with a url that is not empty; the link then points to
    that url and carries the fixed file name. *)
Theorem download_needs_done_url (es : list Event) (l : DownloadLink) :
  handleDownloadIndividualImage (view (run es initialWorld)) = Some l
  <-> generatedImage (view (run es initialWorld)) = Some (image_done (link_href l))
      /\ link_href l <> []
      /\ link_download l = downloadName.
Proof.
  destruct (run_sound es) as (_ & _ & _ & _ & _ & Hr).
  unfold handleDownloadIndividualImage.
  destruct Hr as [-> | [-> | (g & -> & [[u ->] | [m ->]])]]; cbn.
  - split; [discriminate | intros [? _]; discriminate].
  - split; [discriminate | intros [? _]; discriminate].
  - destruct u as [|c u]; cbn.
    + split; [discriminate|]. intros ([= <-] & H & _). now destruct H.
    + split.
      * intros [= <-]. cbn. split_and!; [reflexivity | discriminate | reflexivity].
      * intros ([= E] & _ & Hn). destruct l as [h d]. cbn in *. congruence.
  - split; [discriminate | intros [? _]; discriminate].
Qed.

Lemma download_needs_done_url_witness :
  handleDownloadIndividualImage (view (run plain_run initialWorld))
    = Some {| link_href := result_url; link_download := downloadName |}
  /\ generatedImage (view (run plain_run initialWorld)) = Some (image_done result_url).
Proof.
  assert (H : handleDownloadIndividualImage (view (run plain_run initialWorld))
              = Some {| link_href := result_url; link_download := downloadName |})
    by reflexivity.
  split; [exact H|].
  exact (proj1 (proj1 (download_needs_done_url plain_run _) H)).
Defined.

(** X9: after a call settles, a download gives back the url the call
    resolved with, unless that url is empty; after a rejection it does
    nothing. *)
Theorem download_after_settlement (w : World) (k : nat) (o : Settled) :
  is_Some (inflight w !! k) ->
  handleDownloadIndividualImage (view (step (GenerateSettled k o) w))
  = match o with
    | Resolved resultUrl =>
        if nonempty resultUrl
        then Some {| link_href := resultUrl; link_download := downloadName |}
        else None
    | Rejected _ => None
    end.
Proof.
  intros [c Hc]. cbn [step]. rewrite Hc.
  destruct o as [u|[m|]]; reflexivity.
Qed.

Lemma download_after_settlement_witness :
  is_Some (inflight (run one_photo_run initialWorld) !! 0%nat)
  /\ handleDownloadIndividualImage
       (view (step (GenerateSettled 0 (Resolved result_url))
                (run one_photo_run initialWorld)))
     = Some {| link_href := result_url; link_download := downloadName |}.
Proof.
  assert (H : is_Some (inflight (run one_photo_run initialWorld) !! 0%nat))
    by (eexists; reflexivity).
  split; [exact H|].
  exact (download_after_settlement (run one_photo_run initialWorld) 0
           (Resolved result_url) H).
Defined.

(** ** How the handlers compose *)

(** X10: a reset gives the initial state whatever came before, except
    that it leaves the loading flag alone; after it the upload block is
    drawn, and a second reset, a removal at any index, a download and a
    click on generate change nothing. *)
Theorem reset_starts_over (v : AppModel) :
  handleReset v = setIsLoading (isLoading v) initialModel
  /\ handleReset (handleReset v) = handleReset v
  /\ (forall i, handleRemoveImage i (handleReset v) = handleReset v)
  /\ screens (handleReset v) = [UploadScreen]
  /\ handleDownloadIndividualImage (handleReset v) = None
  /\ (forall w, step GenerateClick (step Reset w) = step Reset w).
Proof.
  split_and!; try reflexivity.
Qed.

Lemma handleRemoveImage_first_images (v : AppModel) :
  uploadedImages (handleRemoveImage 0 v) = drop 1 (uploadedImages v).
Proof.
  rewrite handleRemoveImage_images. unfold js_filter.
  destruct (uploadedImages v) as [|x r] eqn:E; [reflexivity|].
  rewrite filter_from_inside by (simpl; lia). reflexivity.
Qed.

(** X11: clicking the first thumbnail away [n] times drops the first
    [n] images; [appState] stays as it was as long as an image is left
    and is [idle] once the last one is gone. *)
Theorem remove_first_repeatedly (v : AppModel) (n : nat) :
  uploadedImages (Nat.iter n (handleRemoveImage 0) v) = drop n (uploadedImages v)
  /\ ((n < length (uploadedImages v))%nat ->
      appState (Nat.iter n (handleRemoveImage 0) v) = appState v)
  /\ ((0 < n)%nat -> (length (uploadedImages v) <= n)%nat ->
      appState (Nat.iter n (handleRemoveImage 0) v) = idle).
Proof.
  induction n as [|n (IHi & IHk & IHe)].
  - split_and!; [reflexivity | reflexivity | lia].
  - assert (Hi : uploadedImages (Nat.iter (S n) (handleRemoveImage 0) v)
                 = drop (S n) (uploadedImages v)).
    { cbn [Nat.iter nat_rect]. rewrite handleRemoveImage_first_images.
      unfold Nat.iter in IHi. rewrite IHi, drop_drop. f_equal. lia. }
    split; [exact Hi|].
    pose proof (handleRemoveImage_appState 0 (Nat.iter n (handleRemoveImage 0) v)) as Hs.
    change (handleRemoveImage 0 (Nat.iter n (handleRemoveImage 0) v))
      with (Nat.iter (S n) (handleRemoveImage 0) v) in Hs.
    rewrite Hi in Hs. split.
    + intros Hn. rewrite Hs.
      destruct (drop (S n) (uploadedImages v)) eqn:E.
      * apply (f_equal length) in E. rewrite length_drop in E. simpl in E. lia.
      * apply IHk. lia.
    + intros _ Hn. rewrite Hs, drop_ge by lia. reflexivity.
Qed.

Lemma remove_first_repeatedly_witness :
  (0 < 3)%nat /\ (length (uploadedImages three_photos) <= 3)%nat
  /\ appState (Nat.iter 3 (handleRemoveImage 0) three_photos) = idle.
Proof.
  assert (H0 : (0 < 3)%nat) by lia.
  assert (H1 : (length (uploadedImages three_photos) <= 3)%nat) by (simpl; lia).
  split; [exact H0|]. split; [exact H1|].
  exact (proj2 (proj2 (remove_first_repeatedly three_photos 3)) H0 H1).
Defined.

Lemma delete_app_r {A} (l1 l2 : list A) (j : nat) :
  delete (length l1 + j)%nat (l1 ++ l2) = l1 ++ delete j l2.
Proof.
  induction l1 as [|x l1 IH]; simpl; [reflexivity|]. now rewrite IH.
Qed.

(** X12: removing one of the images that an upload has just appended
    leaves the earlier images untouched and takes that one out of the
    new ones; for a batch of one file the images are the earlier ones
    again. *)
Theorem remove_just_uploaded (v : AppModel) (imgs : list JsString.t) (j : nat) :
  (j < length imgs)%nat ->
  let v' := handleRemoveImage (Z.of_nat (length (uploadedImages v) + j))
              (upload_then imgs v) in
  uploadedImages v' = uploadedImages v ++ delete j imgs
  /\ (length imgs = 1%nat -> uploadedImages v' = uploadedImages v)
  /\ (uploadedImages v' <> [] -> appState v' = photos_selected)
  /\ generatedImage v' = None.
Proof.
  intros Hj v'.
  assert (Hi : uploadedImages v' = uploadedImages v ++ delete j imgs).
  { unfold v'. rewrite handleRemoveImage_images. unfold js_filter.
    rewrite filter_from_inside.
    - rewrite Nat.sub_0_r, Nat2Z.id. cbn. apply delete_app_r.
    - cbn. rewrite length_app. lia. }
  split; [exact Hi|]. split_and!.
  - intros H1. rewrite Hi.
    destruct imgs as [|x [|y r]]; simpl in *; try lia.
    assert (j = 0)%nat as -> by lia. simpl. apply app_nil_r.
  - intros NE. unfold v'. rewrite handleRemoveImage_appState. fold v'.
    now destruct (uploadedImages v').
  - unfold v'. now rewrite (proj1 (proj2 (handleRemoveImage_others _ _))).
Qed.

Lemma remove_just_uploaded_witness :
  (0 < length [photo_b])%nat
  /\ uploadedImages (handleRemoveImage 3 (upload_then [photo_b] three_photos))
     = uploadedImages three_photos.
Proof.
  assert (H : (0 < length [photo_b])%nat) by (simpl; lia).
  split; [exact H|].
  exact (proj1 (proj2 (remove_just_uploaded three_photos [photo_b] 0 H)) eq_refl).
Defined.

Lemma promise_all_app (a b : list ReadResult) :
  promise_all (a ++ b)
  = match promise_all a, promise_all b with
    | Some x, Some y => Some (x ++ y)
    | _, _ => None
    end.
Proof.
  induction a as [|[u|] a IH]; simpl.
  - now destruct (promise_all b).
  - rewrite IH. destruct (promise_all a), (promise_all b); reflexivity.
  - reflexivity.
Qed.

Lemma upload_then_twice (i1 i2 : list JsString.t) (v : AppModel) :
  upload_then i2 (upload_then i1 v) = upload_then (i1 ++ i2) v.
Proof.
  unfold upload_then, setGeneratedImage, setAppState, setUploadedImages. cbn.
  now rewrite app_assoc.
Qed.

(** X13: two batches that decode, uploaded one after the other, leave
    the same world as the one batch made of both; when a file of the
    second batch fails, the separate uploads keep the images of the
    first batch while the joint upload appends nothing. *)
Theorem batches_compose (w : World) (f1 f2 : list File) (i1 : list JsString.t) :
  f1 <> [] -> f2 <> [] ->
  map readAsDataURL f1 = map ReadOk i1 ->
  (forall i2, map readAsDataURL f2 = map ReadOk i2 ->
     upload_outcome f2 (upload_outcome f1 w) = upload_outcome (f1 ++ f2) w)
  /\ ((exists f, f ∈ f2 /\ readAsDataURL f = ReadFailed) ->
      uploadedImages (view (upload_outcome f2 (upload_outcome f1 w)))
        = uploadedImages (view w) ++ i1
      /\ uploadedImages (view (upload_outcome (f1 ++ f2) w))
        = uploadedImages (view w)).
Proof.
  intros N1 N2 H1.
  destruct f1 as [|a f1]; [contradiction|].
  destruct f2 as [|b f2]; [contradiction|].
  change ((a :: f1) ++ b :: f2) with (a :: (f1 ++ b :: f2)).
  rewrite !upload_outcome_nonempty.
  change (a :: (f1 ++ b :: f2)) with ((a :: f1) ++ b :: f2).
  rewrite (upload_settled_ok _ _ _ H1).
  assert (Hjoint : promise_all (map readAsDataURL ((a :: f1) ++ b :: f2))
                   = match promise_all (map readAsDataURL (b :: f2)) with
                     | Some y => Some (i1 ++ y)
                     | None => None
                     end).
  { rewrite map_app, promise_all_app. now rewrite (promise_all_ok _ _ H1). }
  split.
  - intros i2 H2. rewrite (upload_settled_ok _ _ _ H2).
    unfold upload_settled. rewrite Hjoint, (promise_all_ok _ _ H2).
    unfold with_view. cbn [view decoding inflight alerts].
    now rewrite upload_then_twice.
  - intros (f & Hin & Hf).
    assert (Hall : promise_all (map readAsDataURL (b :: f2)) = None).
    { apply promise_all_failed. rewrite <- Hf. now apply list_elem_of_fmap_2. }
    unfold upload_settled. rewrite Hjoint, Hall. split; reflexivity.
Qed.

Lemma batches_compose_witness :
  [file_a] <> [] /\ [file_b] <> []
  /\ map readAsDataURL [file_a] = map ReadOk [photo_a]
  /\ upload_outcome [file_b] (upload_outcome [file_a] initialWorld)
     = upload_outcome [file_a; file_b] initialWorld.
Proof.
  assert (N1 : [file_a] <> []) by discriminate.
  assert (N2 : [file_b] <> []) by discriminate.
  split; [exact N1|]. split; [exact N2|]. split; [reflexivity|].
  exact (proj1 (batches_compose initialWorld [file_a] [file_b] [photo_a]
                  N1 N2 eq_refl) [photo_b] eq_refl).
Defined.

(** X14: images are appended in the order in which the batches finish
    decoding, whatever the order they were chosen in. *)
Theorem images_follow_settling_order
    (w : World) (f1 f2 : list File) (i1 i2 : list JsString.t) :
  decoding w !! 0%nat = Some f1 ->
  decoding w !! 1%nat = Some f2 ->
  map readAsDataURL f1 = map ReadOk i1 ->
  map readAsDataURL f2 = map ReadOk i2 ->
  uploadedImages (view (run [DecodeSettled 0; DecodeSettled 0] w))
    = uploadedImages (view w) ++ i1 ++ i2
  /\ uploadedImages (view (run [DecodeSettled 1; DecodeSettled 0] w))
    = uploadedImages (view w) ++ i2 ++ i1.
Proof.
  intros D0 D1 H1 H2. unfold run. cbn [foldl step]. rewrite D0, D1.
  rewrite (upload_settled_ok _ _ _ H1), (upload_settled_ok _ _ _ H2).
  cbn [with_view decoding view].
  rewrite list_lookup_delete_ge by lia. rewrite D1.
  rewrite list_lookup_delete_lt by lia. rewrite D0.
  rewrite (upload_settled_ok _ _ _ H1), (upload_settled_ok _ _ _ H2).
  cbn. rewrite <- !app_assoc. split; reflexivity.
Qed.

Lemma images_follow_settling_order_witness :
  decoding two_batches_world !! 0%nat = Some [file_a]
  /\ decoding two_batches_world !! 1%nat = Some [file_b]
  /\ uploadedImages (view (run [DecodeSettled 1; DecodeSettled 0] two_batches_world))
     = [photo_a; photo_b; photo_c; photo_b; photo_a].
Proof.
  split; [reflexivity|]. split; [reflexivity|].
  exact (proj2 (images_follow_settling_order two_batches_world
                  [file_a] [file_b] [photo_a] [photo_b]
                  eq_refl eq_refl eq_refl eq_refl)).
Defined.




Lemma generate_settled_twice (o1 o2 : Settled) (v : AppModel) :
  generate_settled o2 (generate_settled o1 v) = generate_settled o2 v.
Proof. destruct o1 as [?|[?|]], o2 as [?|[?|]]; reflexivity. Qed.

(** X15: when two generation calls settle one after the other, the
    state is the one the second settlement alone would give: the page
    shows the outcome that arrived last, whichever call it belongs
    to. *)
Theorem last_settlement_wins (w : World) (k1 k2 : nat) (o1 o2 : Settled) :
  is_Some (inflight w !! k1) ->
  is_Some (delete k1 (inflight w) !! k2) ->
  view (run [GenerateSettled k1 o1; GenerateSettled k2 o2] w)
    = generate_settled o2 (view w)
  /\ inflight (run [GenerateSettled k1 o1; GenerateSettled k2 o2] w)
    = delete k2 (delete k1 (inflight w)).
Proof.
  intros [c1 H1] [c2 H2]. unfold run. cbn [foldl step]. rewrite H1.
  cbn [with_view inflight view decoding alerts]. rewrite H2.
  cbn [with_view inflight view decoding alerts].
  now rewrite generate_settled_twice.
Qed.

Lemma last_settlement_wins_witness :
  is_Some (inflight (run [GenerateClick; GenerateClick] three_photos_world) !! 1%nat)
  /\ generatedImage
       (view (run [GenerateSettled 1 (Resolved result_url);
                   GenerateSettled 0 (Rejected ThrownOther)]
                (run [GenerateClick; GenerateClick] three_photos_world)))
     = Some (image_error unknownError).
Proof.
  assert (H1 : is_Some (inflight (run [GenerateClick; GenerateClick]
                                   three_photos_world) !! 1%nat))
    by (eexists; reflexivity).
  assert (H2 : is_Some (delete 1%nat (inflight (run [GenerateClick; GenerateClick]
                                   three_photos_world)) !! 0%nat))
    by (eexists; reflexivity).
  split; [exact H1|].
  exact (f_equal generatedImage
           (proj1 (last_settlement_wins _ 1%nat 0%nat (Resolved result_url)
                     (Rejected ThrownOther) H1 H2))).
Defined.

(** ** More on the prompt composer *)

Lemma trimStart_nil_iff (s : JsString.t) :
  trimStart s = [] <-> forallb is_ws s = true.
Proof.
  induction s as [|c s IH]; simpl; [easy|].
  destruct (is_ws c); simpl; [exact IH | easy].
Qed.

Lemma trimStart_ws_app (a x : JsString.t) :
  forallb is_ws a = true -> trimStart (a ++ x) = trimStart x.
Proof.
  induction a as [|c a IH]; simpl; [reflexivity|].
  destruct (is_ws c); simpl; [exact IH | discriminate].
Qed.

Lemma forallb_rev (f : N -> bool) (l : JsString.t) :
  forallb f (rev l) = forallb f l.
Proof.
  induction l as [|c l IH]; simpl; [reflexivity|].
  rewrite forallb_app, IH. simpl. rewrite andb_true_r. apply andb_comm.
Qed.

Lemma trimEnd_app_ws (x b : JsString.t) :
  forallb is_ws b = true -> trimEnd (x ++ b) = trimEnd x.
Proof.
  intros H. unfold trimEnd. rewrite rev_app_distr, trimStart_ws_app; [reflexivity|].
  now rewrite forallb_rev.
Qed.

Lemma trim_app_ws (x b : JsString.t) :
  forallb is_ws b = true -> trim (x ++ b) = trim x.
Proof.
  intros H. unfold trim.
  destruct (trimStart x) as [|c r] eqn:E.
  - assert (Hall : forallb is_ws (x ++ b) = true).
    { rewrite forallb_app, H, andb_true_r. now apply trimStart_nil_iff. }
    apply trimStart_nil_iff in Hall. now rewrite Hall.
  - rewrite trimStart_app by (rewrite E; discriminate).
    rewrite E. now apply trimEnd_app_ws.
Qed.

Lemma trim_surrounded (a x b : JsString.t) :
  forallb is_ws a = true -> forallb is_ws b = true ->
  trim (a ++ x ++ b) = trim x.
Proof.
  intros Ha Hb. rewrite <- (trim_app_ws x b Hb).
  unfold trim. now rewrite trimStart_ws_app.
Qed.

Lemma trimStart_trimStart (s : JsString.t) :
  trimStart (trimStart s) = trimStart s.
Proof.
  destruct (trimStart s) as [|d q] eqn:E; [reflexivity|].
  apply trimStart_id. exact (trimStart_head _ _ _ E).
Qed.

Lemma trimEnd_trimEnd (s : JsString.t) : trimEnd (trimEnd s) = trimEnd s.
Proof.
  unfold trimEnd. now rewrite rev_involutive, trimStart_trimStart.
Qed.

Lemma trim_trim (s : JsString.t) : trim (trim s) = trim s.
Proof.
  destruct (trim s) as [|c r] eqn:E; [reflexivity|].
  pose proof (trim_head _ _ _ E) as Hc.
  unfold trim at 1. rewrite trimStart_id by exact Hc.
  rewrite <- E. apply trimEnd_trimEnd.
Qed.

Lemma createFinalPrompt_by_trim (p q : JsString.t) :
  trim p = trim q -> createFinalPrompt p = createFinalPrompt q.
Proof.
  intros H. unfold createFinalPrompt, userScene. now rewrite H.
Qed.

(** X16: whitespace around the user's text does not matter: a prompt
    with whitespace added before and after it gives the same
    instruction string, a prompt gives the same as its trimmed text,
    and a prompt of whitespace only gives the same as the empty one. *)
Theorem surrounding_whitespace_is_ignored (a p b : JsString.t) :
  forallb is_ws a = true -> forallb is_ws b = true ->
  createFinalPrompt (a ++ p ++ b) = createFinalPrompt p
  /\ createFinalPrompt (trim p) = createFinalPrompt p
  /\ createFinalPrompt (a ++ b) = createFinalPrompt [].
Proof.
  intros Ha Hb. split_and!; apply createFinalPrompt_by_trim.
  - now apply trim_surrounded.
  - apply trim_trim.
  - rewrite <- (app_nil_l b). now apply trim_surrounded.
Qed.

Lemma surrounding_whitespace_is_ignored_witness :
  forallb is_ws [SP; 9] = true /\ forallb is_ws [LF; 160] = true
  /\ createFinalPrompt ([SP; 9] ++ beach ++ [LF; 160]) = createFinalPrompt beach.
Proof.
  split; [reflexivity|]. split; [reflexivity|].
  exact (proj1 (surrounding_whitespace_is_ignored [SP; 9] beach [LF; 160]
                  eq_refl eq_refl)).
Defined.

Lemma userScene_effective (p : JsString.t) :
  userScene p = scenePrefix ++ effective_text p ++ lit ".".
Proof.
  unfold userScene, effective_text.
  destruct (trim p); [exact fallbackScene_parts | reflexivity].
Qed.

(** X17: two prompts give the same instruction string exactly when
    the texts put into the scene clause are the same, that is when
    their trimmed texts are equal or one is blank and the other is the
    fallback sentence. *)
Theorem same_prompt_same_text (p q : JsString.t) :
  createFinalPrompt p = createFinalPrompt q
  <-> effective_text p = effective_text q.
Proof.
  assert (Hshape : forall x, createFinalPrompt x
    = (baseInstruction ++ SP :: scenePrefix)
      ++ effective_text x ++ 46 :: SP :: rulesFlat).
  { intros x. rewrite createFinalPrompt_shape, userScene_effective.
    change (lit ".") with [46].
    repeat rewrite <- app_assoc. reflexivity. }
  rewrite !Hshape. split.
  - intros H. apply app_inv_head in H. now apply app_inv_tail in H.
  - now intros ->.
Qed.

Lemma same_prompt_same_text_witness :
  effective_text fallbackWording = effective_text []
  /\ createFinalPrompt fallbackWording = createFinalPrompt [].
Proof.
  assert (H : effective_text fallbackWording = effective_text []) by reflexivity.
  split; [exact H|].
  exact (proj2 (same_prompt_same_text fallbackWording []) H).
Defined.

Lemma adjacent_ws_intro (l : JsString.t) (c d : N) (r : JsString.t) :
  is_ws c = true -> is_ws d = true -> adjacent_ws (l ++ c :: d :: r) = true.
Proof.
  intros Hc Hd. induction l as [|e l IH]; simpl.
  - now rewrite Hc, Hd.
  - rewrite IH. apply orb_true_r.
Qed.

Lemma collapse_runs_apart (b : bool) (s : JsString.t) :
  adjacent_ws (collapse_runs b s) = false
  /\ (b = true -> head_is_ws (collapse_runs b s) = false).
Proof.
  revert b. induction s as [|c s IH]; intros b; [easy|].
  cbn [collapse_runs]. destruct (is_ws c) eqn:Hc.
  - destruct b.
    + apply IH.
    + destruct (IH true) as [Ha Hh]. split; [|discriminate].
      cbn [adjacent_ws]. rewrite Ha, (Hh eq_refl). now rewrite andb_false_r.
  - destruct (IH false) as [Ha _]. split.
    + cbn [adjacent_ws]. now rewrite Hc, Ha.
    + intros _. cbn. exact Hc.
Qed.

Lemma rulesFlat_starts_with_space : rulesFlat = SP :: tl rulesFlat.
Proof. vm_compute. reflexivity. Qed.

(** X18: every composed prompt has two spaces in a row between the
    scene clause and the rules, because the flattened rules block
    begins with a space and the template puts one before it; so no
    composed prompt is whitespace-normalised as a whole. *)
Theorem composed_prompt_has_double_space (p : JsString.t) :
  includes (createFinalPrompt p) [SP; SP] = true
  /\ adjacent_ws (createFinalPrompt p) = true
  /\ normalize_whitespace (createFinalPrompt p) <> createFinalPrompt p.
Proof.
  assert (Hshape : createFinalPrompt p
    = (baseInstruction ++ SP :: userScene p) ++ SP :: SP :: tl rulesFlat).
  { rewrite createFinalPrompt_shape, rulesFlat_starts_with_space at 1.
    rewrite <- app_assoc. reflexivity. }
  assert (Hadj : adjacent_ws (createFinalPrompt p) = true).
  { rewrite Hshape. now apply adjacent_ws_intro. }
  split_and!.
  - rewrite Hshape. apply includes_spec.
    now exists (baseInstruction ++ SP :: userScene p), (tl rulesFlat).
  - exact Hadj.
  - intros E. rewrite <- E in Hadj.
    unfold normalize_whitespace in Hadj.
    now rewrite (proj1 (collapse_runs_apart false _)) in Hadj.
Qed.

Lemma replace_runs_head (b : bool) (s : JsString.t) :
  head_is_ws s = false -> head_is_ws (replace_runs b s) = false.
Proof.
  destruct s as [|c s]; [reflexivity|].
  cbn [head_is_ws replace_runs]. intros H. rewrite H. exact H.
Qed.

Lemma replace_runs_apart (b : bool) (s : JsString.t) :
  adjacent_ws (replace_runs b s) = false
  /\ (b = true -> head_is_ws (replace_runs b s) = false).
Proof.
  revert b. induction s as [|c s IH]; intros b; [easy|].
  cbn [replace_runs]. destruct (is_ws c) eqn:Hc.
  - destruct b.
    + apply IH.
    + split; [|discriminate]. destruct (head_is_ws s) eqn:Hs.
      * destruct (IH true) as [Ha Hh].
        cbn [adjacent_ws]. rewrite Ha, (Hh eq_refl). now rewrite andb_false_r.
      * destruct (IH false) as [Ha _].
        cbn [adjacent_ws]. rewrite Ha, (replace_runs_head false s Hs).
        now rewrite andb_false_r.
  - destruct (IH false) as [Ha _]. split.
    + cbn [adjacent_ws]. now rewrite Hc, Ha.
    + intros _. cbn. exact Hc.
Qed.

Lemma replace_runs_fixed (s : JsString.t) :
  adjacent_ws s = false -> replace_runs false s = s.
Proof.
  induction s as [|c s IH]; [reflexivity|].
  cbn [adjacent_ws replace_runs]. intros H.
  apply orb_false_iff in H as [H1 H2].
  destruct (is_ws c); simpl in H1.
  - rewrite H1. now rewrite IH.
  - now rewrite IH.
Qed.

(** X19: for any string, [replace(/\s\s+/g, ' ')] leaves no two
    whitespace characters next to each other, changes nothing in a
    string that has none, and so changes nothing when applied a second
    time. *)
Theorem replace_ws_runs_settles (s : JsString.t) :
  adjacent_ws (replace_ws_runs s) = false
  /\ (adjacent_ws s = false -> replace_ws_runs s = s)
  /\ replace_ws_runs (replace_ws_runs s) = replace_ws_runs s.
Proof.
  pose proof (proj1 (replace_runs_apart false s)) as Ha.
  split; [exact Ha|]. split.
  - apply replace_runs_fixed.
  - now apply replace_runs_fixed.
Qed.

Lemma replace_ws_runs_settles_witness :
  adjacent_ws beach = false /\ replace_ws_runs beach = beach.
Proof.
  split; [reflexivity|].
  exact (proj1 (proj2 (replace_ws_runs_settles beach)) eq_refl).
Defined.

(** C9, amended: the composer is deterministic for a fixed prompt:
    prompts with the same trimmed text, and so two calls with the same
    prompt, give the same instruction string.  It is not idempotent: a
    composed string is already trimmed and not empty, so the composer
    applied to it puts the whole of it into a new scene clause between
    the objective and the rules, which gives a strictly longer string
    and never the same one. *)
Theorem createFinalPrompt_wraps_again (p q : JsString.t) :
  (trim p = trim q -> createFinalPrompt p = createFinalPrompt q)
  /\ trim (createFinalPrompt p) = createFinalPrompt p
  /\ createFinalPrompt (createFinalPrompt p)
     = baseInstruction
       ++ SP :: (scenePrefix ++ createFinalPrompt p ++ lit ".")
       ++ SP :: rulesFlat
  /\ (length (createFinalPrompt p) < length (createFinalPrompt (createFinalPrompt p)))%nat
  /\ createFinalPrompt (createFinalPrompt p) <> createFinalPrompt p.
Proof.
  assert (Htrim : trim (createFinalPrompt p) = createFinalPrompt p).
  { unfold createFinalPrompt. apply trim_trim. }
  assert (Hne : trim (createFinalPrompt p) <> []).
  { rewrite Htrim, createFinalPrompt_shape.
    intros E. apply app_eq_nil in E as [_ E]. discriminate E. }
  assert (Hwrap : createFinalPrompt (createFinalPrompt p)
                  = baseInstruction
                    ++ SP :: (scenePrefix ++ createFinalPrompt p ++ lit ".")
                    ++ SP :: rulesFlat).
  { rewrite (createFinalPrompt_shape (createFinalPrompt p)).
    now rewrite (userScene_text _ Hne), Htrim. }
  assert (Hlen : (length (createFinalPrompt p)
                  < length (createFinalPrompt (createFinalPrompt p)))%nat).
  { rewrite Hwrap. rewrite length_app. cbn [length].
    rewrite ?length_app. cbn [length]. rewrite ?length_app. lia. }
  split_and!; try assumption.
  - apply createFinalPrompt_by_trim.
  - intros E. rewrite E in Hlen. lia.
Qed.

Lemma createFinalPrompt_wraps_again_witness :
  trim ([SP] ++ beach ++ [LF]) = trim beach
  /\ createFinalPrompt ([SP] ++ beach ++ [LF]) = createFinalPrompt beach.
Proof.
  assert (H : trim ([SP] ++ beach ++ [LF]) = trim beach) by reflexivity.
  split; [exact H|].
  exact (proj1 (createFinalPrompt_wraps_again ([SP] ++ beach ++ [LF]) beach) H).
Defined.

(** ** Language and labels *)

Lemma js_eqb_eq (a b : JsString.t) : I18n.js_eqb a b = true <-> a = b.
Proof.
  revert b. induction a as [|x a IH]; intros [|y b]; simpl; try easy.
  rewrite andb_true_iff, N.eqb_eq, IH. split.
  - now intros [-> ->].
  - now intros [= -> ->].
Qed.

Lemma before_dash_nil (s : JsString.t) :
  I18n.before_dash s = [] <-> s = [] \/ exists rest, s = I18n.DASH :: rest.
Proof.
  destruct s as [|c s]; simpl.
  - split; [now left | reflexivity].
  - destruct (N.eqb_spec c I18n.DASH) as [-> | NE].
    + split; [intros _; right; now eexists | reflexivity].
    + split; [discriminate|]. intros [H | [rest [= H _]]]; [discriminate | contradiction].
Qed.

Lemma before_dash_cons (s : JsString.t) (c : N) (r : JsString.t) :
  I18n.before_dash s = c :: r
  <-> exists s', s = c :: s' /\ c <> I18n.DASH /\ I18n.before_dash s' = r.
Proof.
  destruct s as [|d s]; simpl.
  - split; [discriminate | intros (s' & H & _); discriminate].
  - destruct (N.eqb_spec d I18n.DASH) as [-> | NE].
    + split; [discriminate|]. intros (s' & [= -> _] & H & _). contradiction.
    + split.
      * intros [= -> <-]. now exists s.
      * intros (s' & [= -> ->] & _ & <-). reflexivity.
Qed.

(** X20: the language is Spanish exactly when [navigator.language] is
    "es" or starts with "es-"; everything else, such as "ES", "esp" or
    the empty string, gives English. *)
Theorem getLanguage_spanish (navigatorLanguage : JsString.t) :
  I18n.getLanguage navigatorLanguage = I18n.es
  <-> navigatorLanguage = lit "es"
      \/ exists rest, navigatorLanguage = lit "es-" ++ rest.
Proof.
  unfold I18n.getLanguage.
  destruct (I18n.js_eqb _ _) eqn:E.
  - apply js_eqb_eq in E. split; [intros _ | reflexivity].
    change (lit "es") with [101; 115] in E.
    apply before_dash_cons in E as (s1 & -> & _ & E).
    apply before_dash_cons in E as (s2 & -> & _ & E).
    apply before_dash_nil in E as [-> | [rest ->]].
    + now left.
    + right. now exists rest.
  - split; [discriminate|]. intros H.
    assert (E' : I18n.js_eqb (I18n.before_dash navigatorLanguage) (lit "es") = true).
    { destruct H as [-> | [rest ->]]; apply js_eqb_eq; reflexivity. }
    congruence.
Qed.

Lemma getLanguage_spanish_witness :
  (lit "es-MX" = lit "es" \/ exists rest, lit "es-MX" = lit "es-" ++ rest)
  /\ I18n.getLanguage (lit "es-MX") = I18n.es.
Proof.
  assert (H : lit "es-MX" = lit "es" \/ exists rest, lit "es-MX" = lit "es-" ++ rest).
  { right. exists (lit "MX"). reflexivity. }
  split; [exact H|].
  exact (proj2 (getLanguage_spanish (lit "es-MX")) H).
Defined.

(** X21: in both languages and for every key, [t] returns the entry
    of the selected language and never the English fallback, because
    no label is empty; the name of the application is the same in
    both. *)
Theorem labels_come_from_the_selected_table (lang : I18n.Lang) (key : I18n.TranslationKey) :
  I18n.t lang key = I18n.translations lang key
  /\ I18n.t lang key <> []
  /\ I18n.t lang I18n.appName = lit "NeuraPic".
Proof.
  split_and!.
  - destruct lang, key; reflexivity.
  - destruct lang, key; discriminate.
  - destruct lang; reflexivity.
Qed.

(** ** The footer *)

Lemma tick_mod (i : nat) : Footer.tick i = ((i + 1) mod 6)%nat.
Proof. reflexivity. Qed.

Lemma index_after_mod (n : nat) : Footer.index_after n = (n mod 6)%nat.
Proof.
  induction n as [|n IH]; [reflexivity|].
  unfold Footer.index_after in *. cbn [Nat.iter nat_rect].
  unfold Nat.iter in IH. rewrite IH, tick_mod.
  rewrite Nat.Div0.add_mod_idemp_l. f_equal. lia.
Qed.

(** X22: the footer's index is the number of ticks modulo six: it
    always selects one of the six ideas, goes through them in order,
    and is back where it was after six ticks. *)
Theorem ticker_cycles (n : nat) :
  Footer.index_after n = (n mod length Footer.REMIX_IDEAS)%nat
  /\ is_Some (Footer.REMIX_IDEAS !! Footer.index_after n)
  /\ Footer.index_after (n + 6) = Footer.index_after n
  /\ (forall i, (Footer.tick i < length Footer.REMIX_IDEAS)%nat).
Proof.
  change (length Footer.REMIX_IDEAS) with 6%nat.
  split_and!.
  - apply index_after_mod.
  - apply lookup_lt_is_Some. rewrite index_after_mod.
    change (length Footer.REMIX_IDEAS) with 6%nat.
    apply Nat.mod_upper_bound. lia.
  - rewrite !index_after_mod.
    replace (n + 6)%nat with (n + 1 * 6)%nat by lia.
    apply Nat.Div0.mod_add.
  - intros i. rewrite tick_mod. apply Nat.mod_upper_bound. lia.
Qed.
